(** * rdflib SPARQL parser utilities: a shallow embedding

    Source files embedded here:
    - [rdflib/plugins/sparql/parserutils.py]: [value], [ParamValue],
      [Param], [plist], [CompValue], [Expr], [Comp];
    - [rdflib/plugins/sparql/results/tsvresults.py]: the tab separated
      result reader.

    Python objects are values of [Val].  The one piece of state the
    source mutates after construction is the attribute [ctx] of a node;
    it lives in a store keyed by object identity, and every operation that
    may read or write it, or raise, runs in the monad [M]. *)

From Stdlib Require Import String Ascii ZArith Lia Bool.
From stdpp Require Import gmap strings list.

Local Open Scope string_scope.
Local Open Scope list_scope.

(** ** Exceptions *)

(** Modelled from the spec: the error classes of
    [rdflib.plugins.sparql.sparql], which [parserutils.py] imports and whose
    source is not at hand.  [NotBoundError] is an evaluation-domain error, that
    is a subclass of [SPARQLError]; the other constructors stand for the
    remaining subclasses and for direct instances. *)
Inductive SPARQLError : Type :=
| SPARQLError_ (msg : option string)
| NotBoundError (msg : option string)
| SPARQLTypeError (msg : option string).

(** What a Python [raise] can carry.  [ExSPARQL] are the instances of
    [SPARQLError]; every other constructor is an exception class that is
    not a subclass of it. *)
Inductive PyExc : Type :=
| ExSPARQL (e : SPARQLError)
| ExException (msg : string)
| ExTypeError
| ExKeyError (key : string)
| ExAttributeError
| ExIndexError
| ExRecursionError
| ExParseException (loc : nat)
| ExOther (cls : string).

Inductive Res (A : Type) : Type :=
| Ok (a : A)
| Raise (e : PyExc).
Arguments Ok {A} a.
Arguments Raise {A} e.

(** ** Values *)

(** Evaluation functions are closures in the source; a node stores the
    name of its function and a table gives the function (see
    [Section Evaluation]). *)
Definition FnId := nat.

#[warnings="-register-all"]
Inductive Val : Type :=
| VNone
| VStr (s : string)
| VInt (z : Z)
| VBool (b : bool)
| VVariable (v : string)                    (* rdflib.Variable *)
| VBNode (b : string)                       (* rdflib.BNode *)
| VURIRef (u : string)
| VLiteral (lexical lang datatype : Val)    (* rdflib.Literal *)
| VError (e : SPARQLError)                  (* an error instance held as a value *)
| VList (l : list Val)                      (* list *)
| VPlist (l : list Val)                     (* plist, a subclass of list *)
| VParseResults (l : list Val)              (* pyparsing.ParseResults *)
| VParamValue (name : string) (tokenList : Val) (isList : bool)
| VCompValue (c : CompValue)
| VExpr (e : Expr)
| VNONE_VALUE                               (* tsvresults.NONE_VALUE *)
with CompValue : Type :=
| MkCompValue (oid : nat) (name : string) (items : list (string * Val))
with Expr : Type :=
| MkExpr (base : CompValue) (_evalfn : option FnId).

Definition oid (c : CompValue) : nat := let 'MkCompValue i _ _ := c in i.
Definition name (c : CompValue) : string := let 'MkCompValue _ n _ := c in n.
Definition items (c : CompValue) : list (string * Val) :=
  let 'MkCompValue _ _ kv := c in kv.
Definition base (e : Expr) : CompValue := let 'MkExpr c _ := e in c.
Definition _evalfn (e : Expr) : option FnId := let 'MkExpr _ f := e in f.

(** ** The ordered dictionary under a node *)

Module OrderedDict.

Fixpoint get (a : string) (d : list (string * Val)) : option Val :=
  match d with
  | [] => None
  | (k, v) :: d' => if String.eqb k a then Some v else get a d'
  end.

Definition contains (a : string) (d : list (string * Val)) : bool :=
  match get a d with Some _ => true | None => false end.

(** [d[a] = v]: a key already present keeps its position. *)
Fixpoint setitem (a : string) (v : Val) (d : list (string * Val))
  : list (string * Val) :=
  match d with
  | [] => [(a, v)]
  | (k, w) :: d' =>
      if String.eqb k a then (k, v) :: d' else (k, w) :: setitem a v d'
  end.

Definition keys (d : list (string * Val)) : list string := map fst d.

(** [d.update(values)]: [d[k] = v] for every pair, in order. *)
Definition update (values d : list (string * Val)) : list (string * Val) :=
  fold_left (fun d kv => setitem (fst kv) (snd kv) d) values d.

End OrderedDict.

(** ** Binding contexts and the store of node contexts *)

(** A context is keyed by variables and blank nodes. *)
Inductive Key : Type :=
| KVariable (v : string)
| KBNode (b : string).

#[global] Instance Key_eq_dec : EqDecision Key.
Proof. solve_decision. Defined.

Definition Key_to_sum (k : Key) : string + string :=
  match k with KVariable v => inl v | KBNode b => inr b end.
Definition Key_of_sum (s : string + string) : Key :=
  match s with inl v => KVariable v | inr b => KBNode b end.

#[global] Instance Key_countable : Countable Key.
Proof.
  apply (inj_countable' Key_to_sum Key_of_sum). intros []; reflexivity.
Defined.

Abbreviation Ctx := (gmap Key Val).

Definition key_of (val : Val) : option Key :=
  match val with
  | VVariable v => Some (KVariable v)
  | VBNode b => Some (KBNode b)
  | _ => None
  end.

(** [ctx.get(val)]: [None] when there is no entry. *)
Definition ctx_get (ctx : Ctx) (val : Val) : Val :=
  match key_of val with
  | Some k => default VNone (ctx !! k)
  | None => VNone
  end.

(** The instance attribute [ctx] of every node, by object identity:
    no entry when the attribute was never assigned, [Some None] after
    [self.ctx = None], [Some (Some c)] while [c] is attached.
    [next_oid] is the identity the next constructed node gets. *)
Record Heap : Type := MkHeap {
  ctx_of : gmap nat (option Ctx);
  next_oid : nat
}.

(** ** The monad of the embedding: state and exceptions *)

Definition M (A : Type) : Type := Heap -> Res A * Heap.

Definition ret {A} (a : A) : M A := fun h => (Ok a, h).
Definition raise {A} (e : PyExc) : M A := fun h => (Raise e, h).
Definition bind {A B} (m : M A) (k : A -> M B) : M B :=
  fun h => match m h with
           | (Ok a, h') => k a h'
           | (Raise e, h') => (Raise e, h')
           end.

Notation "x <- m ;; k" := (bind m (fun x => k))
  (at level 100, m at next level, right associativity).
Notation "m ;;; k" := (bind m (fun _ => k))
  (at level 100, right associativity).

(** [try: body except SPARQLError as e: handler e] *)
Definition try_except_SPARQLError {A} (body : M A) (handler : SPARQLError -> M A)
  : M A :=
  fun h => match body h with
           | (Raise (ExSPARQL e), h') => handler e h'
           | r => r
           end.

(** [try: body except KeyError: handler] *)
Definition try_except_KeyError {A} (body : M A) (handler : M A) : M A :=
  fun h => match body h with
           | (Raise (ExKeyError _), h') => handler h'
           | r => r
           end.

(** [try: body finally: fin]: [fin] runs on every exit of [body]; an
    exception of [fin] replaces the outcome of [body]. *)
Definition try_finally {A} (body : M A) (fin : M unit) : M A :=
  fun h => match body h with
           | (r, h') => match fin h' with
                        | (Ok _, h'') => (r, h'')
                        | (Raise e, h'') => (Raise e, h'')
                        end
           end.

(** The list comprehension [[f x for x in l]]. *)
Definition mapM {A B} (f : A -> M B) : list A -> M (list B) :=
  fix go (l : list A) : M (list B) :=
    match l with
    | [] => ret []
    | x :: l' => y <- f x ;; ys <- go l' ;; ret (y :: ys)
    end.

(** The heap after [self.ctx = c]. *)
Definition with_ctx (self : CompValue) (c : option Ctx) (h : Heap) : Heap :=
  MkHeap (<[oid self := c]> (ctx_of h)) (next_oid h).

(** [self.ctx = c] *)
Definition set_ctx (self : CompValue) (c : option Ctx) : M unit :=
  fun h => (Ok tt, with_ctx self c h).

(** A constructor call: the new object has no attribute [ctx] yet. *)
Definition alloc : M nat :=
  fun h => (Ok (next_oid h),
            MkHeap (delete (next_oid h) (ctx_of h)) (S (next_oid h))).

(** [self.ctx].  An assigned instance attribute is returned.  Otherwise
    Python calls [__getattr__("ctx")], that is [self["ctx"]]: with no key
    ["ctx"] the [KeyError] is caught and the result is [None]; with a key
    ["ctx"], [__getitem__] calls [_value], which reads [self.ctx] again, and
    the calls nest until the interpreter raises [RecursionError], which no
    handler on the way catches. *)
Definition read_ctx (self : CompValue) : M (option Ctx) :=
  fun h => match ctx_of h !! oid self with
           | Some c => (Ok c, h)
           | None =>
               match OrderedDict.get "ctx" (items self) with
               | None => (Ok None, h)
               | Some _ => (Raise ExRecursionError, h)
               end
           end.

(** ** pyparsing, as far as the two source files use it

    pyparsing is a library the repository imports.  An element is its
    whitespace policy and its [parseImpl], parse actions included; a
    failed match is the exception [ParseException]. *)
Module pyparsing.

Record ParserElement : Type := MkParserElement {
  skipWhitespace : bool;
  whiteChars : string;
  parseImpl : string -> nat -> M (nat * list Val)
}.

Definition char_in (c : ascii) (chars : string) : bool :=
  existsb (Ascii.eqb c) (list_ascii_of_string chars).

(** [while loc < instrlen and instring[loc] in wt: loc += 1] *)
Fixpoint skip (wt instring : string) (loc fuel : nat) : nat :=
  match fuel with
  | 0 => loc
  | S fuel' =>
      match String.get loc instring with
      | Some c => if char_in c wt then skip wt instring (S loc) fuel' else loc
      | None => loc
      end
  end.

Definition preParse (self : ParserElement) (instring : string) (loc : nat)
  : nat :=
  if skipWhitespace self
  then skip (whiteChars self) instring loc (String.length instring - loc)
  else loc.

Definition _parse (self : ParserElement) (instring : string) (loc : nat)
  : M (nat * list Val) :=
  parseImpl self instring (preParse self instring loc).

(** [instring[a:b]] *)
Definition slice (instring : string) (a b : nat) : string :=
  substring a (b - a) instring.

(** [try: body except ParseException: ...] *)
Definition try_ParseException {A} (body : M A) : M (option A) :=
  fun h => match body h with
           | (Ok a, h') => (Ok (Some a), h')
           | (Raise (ExParseException _), h') => (Ok None, h')
           | (Raise e, h') => (Raise e, h')
           end.

(** [originalTextFor(expr)]: the start marker, [expr], the end marker,
    and a parse action that replaces the tokens by the text in between.
    The sequence takes its whitespace policy from the start marker, an
    [Empty()] built with the default set [white]. *)
Definition originalTextFor (white : string) (expr : ParserElement)
  : ParserElement :=
  {| skipWhitespace := true;
     whiteChars := white;
     parseImpl := fun instring loc =>
       r <- _parse expr instring loc ;;
       ret (fst r, [VStr (slice instring loc (fst r))]) |}.

Definition newline : ascii := "010"%char.
Definition tab : ascii := "009"%char.

(** [s.expandtabs()]: a tab becomes the spaces up to the next column that
    is a multiple of 8; columns count from the last line break. *)
Fixpoint expandtabs_from (col : nat) (s : string) : string :=
  match s with
  | EmptyString => EmptyString
  | String c rest =>
      if Ascii.eqb c tab then
        let incr := 8 - col mod 8 in
        string_of_list_ascii (replicate incr " "%char)
        +:+ expandtabs_from (col + incr) rest
      else if Ascii.eqb c newline || Ascii.eqb c "013"%char then
        String c (expandtabs_from 0 rest)
      else String c (expandtabs_from (S col) rest)
  end.

Definition expandtabs (s : string) : string := expandtabs_from 0 s.

(** The loop of [scanString]: the matches from [loc] on, each with its
    tokens, start and end.  The source's loop runs while
    [loc <= len(instring)] and every turn moves [loc] forward, so [fuel]
    above that bound is never used up. *)
Fixpoint scanString (self : ParserElement) (instring : string)
         (loc fuel : nat) : M (list (list Val * nat * nat)) :=
  match fuel with
  | 0 => ret []
  | S fuel' =>
      if Nat.ltb (String.length instring) loc then ret []
      else
        let preloc := preParse self instring loc in
        r <- try_ParseException (parseImpl self instring preloc) ;;
        match r with
        | Some (nextLoc, tokens) =>
            if Nat.ltb loc nextLoc
            then rest <- scanString self instring nextLoc fuel' ;;
                 ret ((tokens, preloc, nextLoc) :: rest)
            else scanString self instring (preloc + 1) fuel'
        | None => scanString self instring (preloc + 1) fuel'
        end
  end.

(** [self.searchString(instring)], for an element that was not told to
    keep tabs: the token lists of all matches of [scanString], which
    expands the tabs of the input before its loop. *)
Definition searchString (self : ParserElement) (instring : string)
  : M (list (list Val)) :=
  let instring := expandtabs instring in
  ms <- scanString self instring 0 (S (String.length instring)) ;;
  ret (map (fun m => fst (fst m)) ms).

(** [l[0]] *)
Definition item0 {A} (l : list A) : M A :=
  match l with
  | x :: _ => ret x
  | [] => raise ExIndexError
  end.

(** A [TokenConverter] around [expr]: the element takes the whitespace
    policy of [expr], matches as [expr] does and hands the tokens, with
    the input and the end of the match, to [post]. *)
Definition TokenConverter (expr : ParserElement)
           (post : string -> nat -> list Val -> M (list Val))
  : ParserElement :=
  {| skipWhitespace := skipWhitespace expr;
     whiteChars := whiteChars expr;
     parseImpl := fun instring loc =>
       r <- parseImpl expr instring loc ;;
       toks <- post instring (fst r) (snd r) ;;
       ret (fst r, toks) |}.

(** [instring.startswith(m, loc)] *)
Definition startswith (instring m : string) (loc : nat) : bool :=
  Nat.leb loc (String.length instring)
  && String.eqb (substring loc (String.length m) instring) m.

(** [Literal(matchString)], built while the default whitespace set is
    [white]. *)
Definition Literal (white matchString : string) : ParserElement :=
  {| skipWhitespace := true;
     whiteChars := white;
     parseImpl := fun instring loc =>
       if startswith instring matchString loc
       then ret (loc + String.length matchString, [VStr matchString])
       else raise (ExParseException loc) |}.

(** [try: body except (ParseException, IndexError): ...], the failures
    the alternatives and repetitions of pyparsing recover from. *)
Definition try_match {A} (body : M A) : M (option A) :=
  fun h => match body h with
           | (Ok a, h') => (Ok (Some a), h')
           | (Raise (ExParseException _), h') => (Ok None, h')
           | (Raise ExIndexError, h') => (Ok None, h')
           | (Raise e, h') => (Raise e, h')
           end.

(** [Empty()] *)
Definition Empty (white : string) : ParserElement :=
  {| skipWhitespace := true;
     whiteChars := white;
     parseImpl := fun instring loc => ret (loc, []) |}.

(** [StringEnd()] *)
Definition StringEnd (white : string) : ParserElement :=
  {| skipWhitespace := true;
     whiteChars := white;
     parseImpl := fun instring loc =>
       if Nat.ltb loc (String.length instring)
       then raise (ExParseException loc)
       else if Nat.eqb loc (String.length instring) then ret (loc + 1, [])
       else ret (loc, []) |}.

(** [chars.replace("\n", "")] *)
Fixpoint without_newline (chars : string) : string :=
  match chars with
  | EmptyString => EmptyString
  | String c rest =>
      if Ascii.eqb c newline then without_newline rest
      else String c (without_newline rest)
  end.

(** [LineEnd()]: its whitespace set is the default one without the
    newline. *)
Definition LineEnd (white : string) : ParserElement :=
  {| skipWhitespace := true;
     whiteChars := without_newline white;
     parseImpl := fun instring loc =>
       if Nat.ltb loc (String.length instring) then
         match String.get loc instring with
         | Some c =>
             if Ascii.eqb c newline
             then ret (loc + 1, [VStr (String newline EmptyString)])
             else raise (ExParseException loc)
         | None => raise (ExParseException loc)
         end
       else if Nat.eqb loc (String.length instring) then ret (loc + 1, [])
       else raise (ExParseException loc) |}.

(** [expr.leaveWhitespace()] *)
Definition leaveWhitespace (expr : ParserElement) : ParserElement :=
  {| skipWhitespace := false;
     whiteChars := whiteChars expr;
     parseImpl := parseImpl expr |}.

(** [expr.setParseAction(fn)] for an action that returns the new
    tokens. *)
Definition setParseAction (expr : ParserElement)
           (fn : list Val -> M (list Val)) : ParserElement :=
  {| skipWhitespace := skipWhitespace expr;
     whiteChars := whiteChars expr;
     parseImpl := fun instring loc =>
       r <- parseImpl expr instring loc ;;
       toks <- fn (snd r) ;;
       ret (fst r, toks) |}.

(** [Suppress(expr)] *)
Definition Suppress (expr : ParserElement) : ParserElement :=
  TokenConverter expr (fun _ _ _ => ret []).

(** [FollowedBy(expr)]: [expr] must match here; nothing is consumed. *)
Definition FollowedBy (expr : ParserElement) : ParserElement :=
  {| skipWhitespace := skipWhitespace expr;
     whiteChars := whiteChars expr;
     parseImpl := fun instring loc =>
       _parse expr instring loc ;;; ret (loc, []) |}.

(** [Optional(expr)] *)
Definition Optional (expr : ParserElement) : ParserElement :=
  {| skipWhitespace := skipWhitespace expr;
     whiteChars := whiteChars expr;
     parseImpl := fun instring loc =>
       r <- try_match (parseImpl expr instring loc) ;;
       match r with
       | Some r => ret r
       | None => ret (loc, [])
       end |}.

(** [first + e1 + e2 + ...]: the sequence takes the whitespace policy
    of its first element, which it matches where it stands itself. *)
Fixpoint And_rest (exprs : list ParserElement) (instring : string)
         (loc : nat) (resultlist : list Val) : M (nat * list Val) :=
  match exprs with
  | [] => ret (loc, resultlist)
  | e :: exprs' =>
      r <- _parse e instring loc ;;
      And_rest exprs' instring (fst r) (resultlist ++ snd r)
  end.

Definition And (first : ParserElement) (rest : list ParserElement)
  : ParserElement :=
  {| skipWhitespace := skipWhitespace first;
     whiteChars := whiteChars first;
     parseImpl := fun instring loc =>
       r <- parseImpl first instring loc ;;
       And_rest rest instring (fst r) (snd r) |}.

(** [e1 | e2 | ...], built while the default whitespace set is
    [white]: the first alternative that matches. *)
Fixpoint MatchFirst_alternatives (exprs : list ParserElement)
         (instring : string) (loc : nat) : M (nat * list Val) :=
  match exprs with
  | [] => raise (ExParseException loc)
  | e :: exprs' =>
      r <- try_match (_parse e instring loc) ;;
      match r with
      | Some r => ret r
      | None => MatchFirst_alternatives exprs' instring loc
      end
  end.

Definition MatchFirst (white : string) (exprs : list ParserElement)
  : ParserElement :=
  {| skipWhitespace := true;
     whiteChars := white;
     parseImpl := MatchFirst_alternatives exprs |}.

(** The loop of [ZeroOrMore(expr)] after the first match.  The source
    runs it until [expr] fails; [fuel] bounds the turns of the model, and
    the elements of this file consume a character on every turn, so that
    the length of the input is never used up. *)
Fixpoint ZeroOrMore_loop (expr : ParserElement) (instring : string)
         (fuel loc : nat) (tokens : list Val) : M (nat * list Val) :=
  match fuel with
  | 0 => ret (loc, tokens)
  | S fuel' =>
      r <- try_match (_parse expr instring loc) ;;
      match r with
      | Some r => ZeroOrMore_loop expr instring fuel' (fst r) (tokens ++ snd r)
      | None => ret (loc, tokens)
      end
  end.

(** [ZeroOrMore(expr)] *)
Definition ZeroOrMore (expr : ParserElement) : ParserElement :=
  {| skipWhitespace := skipWhitespace expr;
     whiteChars := whiteChars expr;
     parseImpl := fun instring loc =>
       r <- try_match (parseImpl expr instring loc) ;;
       match r with
       | Some r =>
           ZeroOrMore_loop expr instring (String.length instring)
                           (fst r) (snd r)
       | None => ret (loc, [])
       end |}.

(** [self.parseString(instring, parseAll)].  [keepTabs] is on after
    [self.parseWithTabs()]; the tabs of the input are expanded when it is
    off.  [white] is the default whitespace set when the call is made. *)
Definition parseString (white : string) (keepTabs : bool)
           (self : ParserElement) (instring : string) (parseAll : bool)
  : M (list Val) :=
  let instring := if keepTabs then instring else expandtabs instring in
  r <- _parse self instring 0 ;;
  (if parseAll then
     let loc := preParse self instring (fst r) in
     _parse (And (Empty white) [StringEnd white]) instring loc ;;; ret tt
   else ret tt) ;;;
  ret (snd r).

End pyparsing.
Import pyparsing.

(** [ParamValue.__init__]: a one-element list or match sequence is
    replaced by its element. *)
Definition collapse (tokenList : Val) : Val :=
  match tokenList with
  | VList [x] | VPlist [x] | VParseResults [x] => x
  | _ => tokenList
  end.

Definition ParamValue (name : string) (tokenList : Val) (isList : bool) : Val :=
  VParamValue name (collapse tokenList) isList.

(** [Param(name, expr, isList)] with its parse action [postParse2]. *)
Module Param.
Definition postParse2 (name : string) (isList : bool) (tokenList : list Val)
  : Val :=
  ParamValue name (VParseResults tokenList) isList.
End Param.

Definition Param (name : string) (expr : ParserElement) (isList : bool)
  : ParserElement :=
  TokenConverter expr
    (fun _ _ tokenList => ret [Param.postParse2 name isList tokenList]).

(** [ParamList(name, expr)] *)
Definition ParamList (name : string) (expr : ParserElement) : ParserElement :=
  Param name expr true.

(** [Comp(name, expr)], with the function [setEvalFn] registered. *)
Module Comp.
Record t : Type := Make {
  name : string;
  expr : ParserElement;
  evalfn : option FnId
}.

Definition setEvalFn (self : t) (evalfn : FnId) : t :=
  Make (name self) (expr self) (Some evalfn).
End Comp.

(** ** Strings, literals and results, for [tsvresults.py] *)

(** The whitespace [str.strip()] removes. *)
Definition is_space (c : ascii) : bool :=
  let n := nat_of_ascii c in
  (Nat.leb 9 n && Nat.leb n 13) || (Nat.leb 28 n && Nat.leb n 32).

Fixpoint lstrip_with (p : ascii -> bool) (s : string) : string :=
  match s with
  | String c rest => if p c then lstrip_with p rest else s
  | EmptyString => EmptyString
  end.

Definition reverse (s : string) : string :=
  string_of_list_ascii (rev (list_ascii_of_string s)).

Definition strip_with (p : ascii -> bool) (s : string) : string :=
  reverse (lstrip_with p (reverse (lstrip_with p s))).

(** [s.strip()] *)
Definition strip (s : string) : string := strip_with is_space s.

(** [s.strip(chars)] *)
Definition strip_chars (chars : string) (s : string) : string :=
  strip_with (fun c => char_in c chars) s.

(** Modelled from the spec: the constructor of [rdflib.term.Literal], whose
    source is not at hand: a literal of a lexical value, a language and a
    datatype, the last two [None] when absent. *)
Definition RDFLiteral (value lang datatype : Val) : Val :=
  VLiteral value lang datatype.

(** [rdflib.query.Result] as far as [parse] fills it: the variables and,
    for every row, the pairs [zip] hands to [dict], in their order. *)
Record Result : Type := MkResult {
  vars : list Val;
  bindings : list (list (Val * Val))
}.

Section Evaluation.

(** The evaluation functions registered with [Comp.setEvalFn] or passed
    to [Expr]: [evalfns f self ctx] is the call [f(self, ctx)].  A
    function may do whatever the monad allows: read and write any node's
    context, evaluate nested nodes, raise. *)
Variable evalfns : FnId -> Expr -> Ctx -> M Val.

(** [self._evalfn(ctx)]; calling [None] is a [TypeError]. *)
Definition call_evalfn (self : Expr) (ctx : Ctx) : M Val :=
  match _evalfn self with
  | Some f => evalfns f self ctx
  | None => raise ExTypeError
  end.

(** [Expr.eval] *)
Definition eval (self : Expr) (ctx : Ctx) : M Val :=
  try_finally
    (try_except_SPARQLError
       (set_ctx (base self) (Some ctx) ;;; call_evalfn self ctx)
       (fun e => ret (VError e)))
    (set_ctx (base self) None).

Definition isinstance_SPARQLError (r : Val) : bool :=
  match r with VError _ => true | _ => false end.

Definition is_None (r : Val) : bool :=
  match r with VNone => true | _ => false end.

(** [raise r] for a value [r]. *)
Definition raise_value {A} (r : Val) : M A :=
  match r with
  | VError e => raise (ExSPARQL e)
  | _ => raise ExTypeError
  end.

(** [value] *)
Fixpoint value (ctx : Ctx) (val : Val) (variables errors : bool) {struct val}
  : M Val :=
  match val with
  | VExpr e => eval e ctx
  | VCompValue _ => raise (ExException "What do I do with this CompValue?")
  | VList l | VPlist l =>
      l' <- mapM (fun x => value ctx x variables errors) l ;; ret (VList l')
  | VBNode _ | VVariable _ =>
      let r := ctx_get ctx val in
      if isinstance_SPARQLError r && negb errors then raise_value r
      else if negb (is_None r) then ret r
      else if variables then ret val
      else raise (ExSPARQL (NotBoundError None))
  | VParseResults [x] => value ctx x variables errors
  | _ => ret val
  end.

(** [CompValue._value].  The call of [value] passes [variables] only:
    [errors] keeps its default. *)
Definition _value (self : CompValue) (val : Val) (variables errors : bool)
  : M Val :=
  c <- read_ctx self ;;
  match c with
  | Some ctx => value ctx val variables false
  | None => ret val
  end.

(** [CompValue.__getitem__] *)
Definition __getitem__ (self : CompValue) (a : string) : M Val :=
  match OrderedDict.get a (items self) with
  | Some raw => _value self raw false false
  | None => raise (ExKeyError a)
  end.

(** [CompValue.get]: the default of the dictionary lookup is the key. *)
Definition get (self : CompValue) (a : string) (variables errors : bool)
  : M Val :=
  _value self (default (VStr a) (OrderedDict.get a (items self)))
         variables errors.

(** [CompValue.__getattr__] *)
Definition __getattr__ (self : CompValue) (a : string) : M Val :=
  if String.eqb a "_OrderedDict__root" || String.eqb a "_OrderedDict__end"
  then raise ExAttributeError
  else try_except_KeyError (__getitem__ self a) (ret VNone).

(** [CompValue(name, **values)].  The object is made first; then the call
    of [__init__] binds [values] by keyword, and a key ["self"] or ["name"]
    clashes with a parameter of [__init__], a [TypeError].  [__init__]
    stores the values with [update]. *)
Definition CompValue_new (name : string) (values : list (string * Val))
  : M CompValue :=
  i <- alloc ;;
  if OrderedDict.contains "self" values || OrderedDict.contains "name" values
  then raise ExTypeError
  else ret (MkCompValue i name (OrderedDict.update values [])).

(** [CompValue.clone], that is [CompValue(self.name, **self)].  The
    unpacking [**self] of a mapping that is no plain [dict] takes
    [self.keys()] and then [self[k]] for every key, and [self[k]] is
    [__getitem__] of this class: with a context attached the clone gets the
    resolved values. *)
Definition clone (self : CompValue) : M CompValue :=
  values <- mapM (fun k => v <- __getitem__ self k ;; ret (k, v))
                 (OrderedDict.keys (items self)) ;;
  CompValue_new (name self) values.

(** ** Comp.postParse *)

(** The default whitespace set of pyparsing when [postParse] runs. *)
Variable DEFAULT_WHITE_CHARS : string.

(** [cur.append(x)] for the value [cur] that [res[t.name]] gave.  Lists
    and match sequences have the method.  A node has no such attribute,
    so [__getattr__] answers and what it returns is not callable.  No
    other value has the attribute. *)
Definition append (cur x : Val) : M Val :=
  match cur with
  | VList l => ret (VList (l ++ [x]))
  | VPlist l => ret (VPlist (l ++ [x]))
  | VParseResults l => ret (VParseResults (l ++ [x]))
  | VCompValue c => __getattr__ c "append" ;;; raise ExTypeError
  | VExpr e => __getattr__ (base e) "append" ;;; raise ExTypeError
  | _ => raise ExAttributeError
  end.

Definition setitem (res : CompValue) (a : string) (v : Val) : CompValue :=
  MkCompValue (oid res) (name res) (OrderedDict.setitem a v (items res)).

(** One turn of [for t in tokenList].  [res] was built by this call of
    [postParse] and nothing has attached a context to it, so [res[t.name]]
    is the stored object itself and [append] changes it in place. *)
Definition postParse_token (res : CompValue) (t : Val) : M CompValue :=
  match t with
  | VParamValue n tokenList isList =>
      if isList then
        let res1 :=
          if OrderedDict.contains n (items res) then res
          else setitem res n (VPlist []) in
        cur <- __getitem__ res1 n ;;
        cur' <- append cur tokenList ;;
        ret (setitem res1 n cur')
      else ret (setitem res n tokenList)
  | _ => ret res
  end.

Fixpoint postParse_tokens (res : CompValue) (tokenList : list Val)
  : M CompValue :=
  match tokenList with
  | [] => ret res
  | t :: rest =>
      res' <- postParse_token res t ;; postParse_tokens res' rest
  end.

(** [Comp.postParse] *)
Definition postParse (self : Comp.t) (instring : string) (loc : nat)
           (tokenList : list Val) : M Val :=
  match Comp.evalfn self with
  | Some f =>
      i <- alloc ;;
      res <- postParse_tokens (MkCompValue i (Comp.name self) []) tokenList ;;
      ret (VExpr (MkExpr res (Some f)))
  | None =>
      i <- alloc ;;
      let res := MkCompValue i (Comp.name self) [] in
      res <- (if String.eqb (Comp.name self) "ServiceGraphPattern" then
                let sgp := originalTextFor DEFAULT_WHITE_CHARS (Comp.expr self) in
                found <- searchString sgp instring ;;
                first <- item0 found ;;
                service_string <- item0 first ;;
                ret (setitem res "service_string" service_string)
              else ret res) ;;
      res <- postParse_tokens res tokenList ;;
      ret (VCompValue res)
  end.

(** A [Comp] as a grammar element. *)
Definition Comp_element (self : Comp.t) : ParserElement :=
  TokenConverter (Comp.expr self)
    (fun instring loc tokenList =>
       res <- postParse self instring loc tokenList ;; ret [res]).

(** ** tsvresults.py *)

(** The token rules [tsvresults.py] imports from
    [rdflib.plugins.sparql.parser], whose source is not at hand. *)
Variables STRING_LITERAL1 STRING_LITERAL2 LANGTAG IRIREF BLANK_NODE_LABEL
          NumericLiteral BooleanLiteral Var : ParserElement.

(** The default whitespace set after
    [ParserElement.setDefaultWhitespaceChars(" \n")]. *)
Definition TSV_WHITE : string := String " " (String newline EmptyString).

Definition TAB : string := String tab EmptyString.

Definition String_ : ParserElement :=
  MatchFirst TSV_WHITE [STRING_LITERAL1; STRING_LITERAL2].

Definition RDFLITERAL : ParserElement :=
  Comp_element
    (Comp.Make "literal"
       (And (Param "string" String_ false)
            [Optional
               (MatchFirst TSV_WHITE
                  [Param "lang" (leaveWhitespace LANGTAG) false;
                   And (leaveWhitespace (Literal TSV_WHITE "^^"))
                       [leaveWhitespace (Param "datatype" IRIREF false)]])])
       None).

Definition EMPTY : ParserElement :=
  setParseAction
    (MatchFirst TSV_WHITE
       [FollowedBy (LineEnd TSV_WHITE); FollowedBy (Literal TSV_WHITE TAB)])
    (fun _ => ret [VNONE_VALUE]).

Definition TERM : ParserElement :=
  MatchFirst TSV_WHITE
    [RDFLITERAL; IRIREF; BLANK_NODE_LABEL; NumericLiteral; BooleanLiteral].

(** [EMPTY | TERM] *)
Definition FIELD : ParserElement := MatchFirst TSV_WHITE [EMPTY; TERM].

Definition ROW : ParserElement :=
  And FIELD [ZeroOrMore (And (Suppress (Literal TSV_WHITE TAB)) [FIELD])].

Definition HEADER : ParserElement :=
  And Var [ZeroOrMore (And (Suppress (Literal TSV_WHITE TAB)) [Var])].

(** [TSVResultParser.convertTerm] *)
Definition convertTerm (t : Val) : M Val :=
  match t with
  | VNONE_VALUE => ret VNone
  | VCompValue c | VExpr (MkExpr c _) =>
      if String.eqb (name c) "literal" then
        string <- __getattr__ c "string" ;;
        lang <- __getattr__ c "lang" ;;
        datatype <- __getattr__ c "datatype" ;;
        ret (RDFLiteral string lang datatype)
      else raise (ExException "I dont know how to handle this")
  | _ => ret t
  end.

(** The loop of [parse] over the lines [readline] returns, the empty
    string at the end of the source.  [zip] stops with the shorter of the
    variables and the row, and converts no term beyond. *)
Fixpoint parse_lines (vars : list Val) (lines : list string)
  : M (list (list (Val * Val))) :=
  match lines with
  | [] => ret []
  | line :: lines' =>
      if String.eqb line "" then ret []
      else
        let line := strip_chars (String newline EmptyString) line in
        if String.eqb line "" then parse_lines vars lines'
        else
          row <- parseString TSV_WHITE true ROW line true ;;
          terms <- mapM convertTerm (take (length vars) row) ;;
          bindings <- parse_lines vars lines' ;;
          ret (zip vars terms :: bindings)
  end.

(** [TSVResultParser.parse] on a source of text, given by the lines
    [readline] returns one after the other. *)
Definition parse (source : list string) : M Result :=
  let header := hd "" source in
  vars <- parseString TSV_WHITE true HEADER (strip header) true ;;
  bindings <- parse_lines vars (tl source) ;;
  ret (MkResult vars bindings).

(** *** The layout of a data line

    What the properties of [ROW] are stated with: a line as a sequence of
    fields, each empty or a term. *)

(** Where an element with the whitespace set of this file starts to
    match from [loc]. *)
Definition skip_white (line : string) (loc : nat) : nat :=
  skip TSV_WHITE line loc (String.length line - loc).

(** The lookahead of [EMPTY]: the end of the line, or a tab. *)
Definition at_end_or_tab (line : string) (p : nat) : Prop :=
  p = String.length line \/ String.get p line = Some tab.

(** The token of a field: [None] is the empty field. *)
Definition token_of (field : option Val) : Val :=
  match field with
  | None => VNONE_VALUE
  | Some tok => tok
  end.

(** The field that starts at [loc] in heap [h] ends at [stop] in heap [h']:
    an empty field stands before the end of the line or a tab; a term is
    what [TERM] matches there, one token, without going backwards. *)
Definition field_at (line : string) (loc : nat) (h : Heap)
           (field : option Val) (stop : nat) (h' : Heap) : Prop :=
  let p := skip_white line loc in
  match field with
  | None => at_end_or_tab line p /\ stop = p /\ h' = h
  | Some tok =>
      ~ at_end_or_tab line p /\ p <= stop
      /\ _parse TERM line p h = (Ok (stop, [tok]), h')
  end.

(** The fields after the first: each behind a tab. *)
Fixpoint fields_from (line : string) (loc : nat) (h : Heap)
         (fields : list (option Val)) (stop : nat) (h' : Heap) : Prop :=
  match fields with
  | [] => stop = loc /\ h' = h
  | field :: fields' =>
      String.get (skip_white line loc) line = Some tab
      /\ exists loc1 h1,
          field_at line (S (skip_white line loc)) h field loc1 h1
          /\ fields_from line loc1 h1 fields' stop h'
  end.

(** A line of the fields [first :: rest], and only whitespace after the
    last. *)
Definition row_layout (line : string) (h : Heap) (first : option Val)
           (rest : list (option Val)) (h' : Heap) : Prop :=
  exists loc1 h1 stop,
    field_at line 0 h first loc1 h1
    /\ fields_from line loc1 h1 rest stop h'
    /\ skip_white line stop = String.length line.

(** The element [postParse] searches the input with. *)
Definition sgp (self : Comp.t) : ParserElement :=
  originalTextFor DEFAULT_WHITE_CHARS (Comp.expr self).

End Evaluation.

(** ** Reading a token sequence

    What the properties of [Comp.postParse] say about the tokens of a
    production, and the loop of [postParse] on the node under construction
    as a function on its dictionary. *)

(** The name of a labelled token. *)
Definition label (t : Val) : option string :=
  match t with VParamValue n _ _ => Some n | _ => None end.

Definition labels (tokenList : list Val) : list string :=
  omap label tokenList.

(** [t] is a token labelled [n] by a [ParamList] ([isList]) or by a plain
    [Param] (not [isList]). *)
Definition labelled_by (isList : bool) (n : string) (t : Val) : bool :=
  match t with
  | VParamValue m _ l => String.eqb m n && Bool.eqb l isList
  | _ => false
  end.

Definition uses (isList : bool) (n : string) (tokenList : list Val) : bool :=
  existsb (labelled_by isList n) tokenList.

(** Every labelled token comes from a plain [Param]. *)
Definition scalar_only (tokenList : list Val) : bool :=
  forallb (fun t => match t with VParamValue _ _ true => false | _ => true end)
          tokenList.

(** No name is used both by a [Param] and by a [ParamList]. *)
Definition consistent (tokenList : list Val) : bool :=
  forallb (fun t => match label t with
                    | Some n => negb (uses true n tokenList
                                      && uses false n tokenList)
                    | None => true
                    end) tokenList.

(** The value of the last token labelled [n]. *)
Fixpoint last_value (n : string) (tokenList : list Val) : option Val :=
  match tokenList with
  | [] => None
  | t :: rest =>
      match last_value n rest with
      | Some v => Some v
      | None => match t with
                | VParamValue m v _ => if String.eqb m n then Some v else None
                | _ => None
                end
      end
  end.

(** The values of the tokens labelled [n], in match order. *)
Fixpoint values_of (n : string) (tokenList : list Val) : list Val :=
  match tokenList with
  | [] => []
  | VParamValue m v _ :: rest =>
      if String.eqb m n then v :: values_of n rest else values_of n rest
  | _ :: rest => values_of n rest
  end.

(** [cur.append(x)] where it succeeds. *)
Definition appended (cur x : Val) : option Val :=
  match cur with
  | VList l => Some (VList (l ++ [x]))
  | VPlist l => Some (VPlist (l ++ [x]))
  | VParseResults l => Some (VParseResults (l ++ [x]))
  | _ => None
  end.

(** One turn of the loop of [postParse] on the dictionary [d] of a node
    that has no attribute [ctx]; [None] when the turn raises. *)
Definition token_items (d : list (string * Val)) (t : Val)
  : option (list (string * Val)) :=
  match t with
  | VParamValue n tokenList isList =>
      if isList then
        let d1 := if OrderedDict.contains n d then d
                  else OrderedDict.setitem n (VPlist []) d in
        if OrderedDict.contains "ctx" d1 then None
        else
          cur ← OrderedDict.get n d1 ;
          cur' ← appended cur tokenList ;
          Some (OrderedDict.setitem n cur' d1)
      else Some (OrderedDict.setitem n tokenList d)
  | _ => Some d
  end.

Fixpoint tokens_items (d : list (string * Val)) (tokenList : list Val)
  : option (list (string * Val)) :=
  match tokenList with
  | [] => Some d
  | t :: rest => d' ← token_items d t ; tokens_items d' rest
  end.

(** The node [postParse] returns, around the dictionary built. *)
Definition built (self : Comp.t) (c : CompValue) : Val :=
  match Comp.evalfn self with
  | Some f => VExpr (MkExpr c (Some f))
  | None => VCompValue c
  end.

(** The production falls under the special case of [postParse]. *)
Definition is_ServiceGraphPattern (self : Comp.t) : bool :=
  match Comp.evalfn self with
  | Some _ => false
  | None => String.eqb (Comp.name self) "ServiceGraphPattern"
  end.

(** ** The type tests of [value], as predicates on values *)

(** [isinstance(val, Expr)] *)
Definition isinstance_Expr (val : Val) : bool :=
  match val with VExpr _ => true | _ => false end.

(** [isinstance(val, CompValue)]; [Expr] is a subclass. *)
Definition isinstance_CompValue (val : Val) : bool :=
  match val with VCompValue _ | VExpr _ => true | _ => false end.

(** [isinstance(val, list)]; [plist] is a subclass. *)
Definition isinstance_list (val : Val) : bool :=
  match val with VList _ | VPlist _ => true | _ => false end.

(** [isinstance(val, (BNode, Variable))] *)
Definition isinstance_BNode_Variable (val : Val) : bool :=
  match val with VBNode _ | VVariable _ => true | _ => false end.

(** [isinstance(val, ParseResults) and len(val) == 1] *)
Definition is_single_ParseResults (val : Val) : bool :=
  match val with VParseResults [_] => true | _ => false end.

(** [isinstance(val, ParseResults)] *)
Definition isinstance_ParseResults (val : Val) : bool :=
  match val with VParseResults _ => true | _ => false end.

(** No node stands where [value] looks: in the value itself, in the
    elements of a list, in the element of a match sequence of one. *)
Fixpoint node_free (val : Val) : bool :=
  match val with
  | VCompValue _ | VExpr _ => false
  | VList l | VPlist l => forallb node_free l
  | VParseResults [x] => node_free x
  | _ => true
  end.

(** Neither a node nor a variable or blank node stands where [value]
    looks. *)
Fixpoint ground (val : Val) : bool :=
  match val with
  | VCompValue _ | VExpr _ | VVariable _ | VBNode _ => false
  | VList l | VPlist l => forallb ground l
  | VParseResults [x] => ground x
  | _ => true
  end.

(** ** Sample evaluation functions and nodes, for the examples below *)

Module Samples.

(** No function registered under any name. *)
Definition no_fns : FnId -> Expr -> Ctx -> M Val :=
  fun _ _ _ => raise ExTypeError.

(** [x + y] on integers; anything else is a type mismatch. *)
Definition add (x y : Val) : M Val :=
  match x, y with
  | VInt a, VInt b => ret (VInt (a + b))
  | _, _ => raise (ExSPARQL (SPARQLTypeError None))
  end.

(** A table of evaluation functions.  Nested nodes are evaluated with
    the table one level down, so that the table is a plain recursive
    definition.
    - 0: [lambda self, ctx: self.x + self.y]
    - 1: [lambda self, ctx: self.arg]
    - 2: a function that raises [ZeroDivisionError]
    - any other: a function that raises [SPARQLError("boom")] *)
Fixpoint fns (depth : nat) (f : FnId) (self : Expr) (ctx : Ctx) : M Val :=
  match depth with
  | 0 => raise ExTypeError
  | S depth' =>
      match f with
      | 0 => x <- __getattr__ (fns depth') (base self) "x" ;;
             y <- __getattr__ (fns depth') (base self) "y" ;;
             add x y
      | 1 => __getattr__ (fns depth') (base self) "arg"
      | 2 => raise (ExOther "ZeroDivisionError")
      | _ => raise (ExSPARQL (SPARQLError_ (Some "boom")))
      end
  end.

(** Modelled from the spec: the token rules of
    [rdflib.plugins.sparql.parser], whose source is not at hand, after
    "quoted literals (with optional [@lang] or [^^datatype]), IRIs in angle
    brackets, blank-node labels, numeric literals, and boolean literals"
    and "one header line of tab-separated variable names".  A quoted
    string gives its text, a language tag its name, a number and a truth
    value a literal of it.  The rules were built before [tsvresults.py]
    changed the default whitespace set. *)
Module Terminals.

Definition WHITE : string :=
  String " " (String newline (String tab (String "013" EmptyString))).

(** The length of the longest run of characters with [p] from [loc]. *)
Fixpoint run (p : ascii -> bool) (instring : string) (loc fuel : nat) : nat :=
  match fuel with
  | 0 => 0
  | S fuel' =>
      match String.get loc instring with
      | Some c => if p c then S (run p instring (S loc) fuel') else 0
      | None => 0
      end
  end.

Definition run_from (p : ascii -> bool) (instring : string) (loc : nat) : nat :=
  run p instring loc (String.length instring - loc).

Definition at_char (c : ascii) (instring : string) (loc : nat) : bool :=
  match String.get loc instring with
  | Some c' => Ascii.eqb c c'
  | None => false
  end.

(** The text between an opening character and the next closing one. *)
Definition delimited (opening closing : ascii) (wrap : string -> Val)
  : ParserElement :=
  {| skipWhitespace := true;
     whiteChars := WHITE;
     parseImpl := fun instring loc =>
       let n := run_from (fun c => negb (Ascii.eqb c closing))
                         instring (S loc) in
       if at_char opening instring loc
          && at_char closing instring (S loc + n)
       then ret (S loc + n + 1, [wrap (substring (S loc) n instring)])
       else raise (ExParseException loc) |}.

Definition is_alnum (c : ascii) : bool :=
  let n := nat_of_ascii c in
  (Nat.leb 48 n && Nat.leb n 57) || (Nat.leb 65 n && Nat.leb n 90)
  || (Nat.leb 97 n && Nat.leb n 122) || Nat.eqb n 95.

Definition is_digit (c : ascii) : bool :=
  let n := nat_of_ascii c in Nat.leb 48 n && Nat.leb n 57.

(** A prefix and then one name character at least. *)
Definition prefixed (prefix : string) (p : ascii -> bool)
           (wrap : string -> Val) : ParserElement :=
  {| skipWhitespace := true;
     whiteChars := WHITE;
     parseImpl := fun instring loc =>
       let start := loc + String.length prefix in
       let n := run_from p instring start in
       if startswith instring prefix loc && negb (Nat.eqb n 0)
       then ret (start + n, [wrap (substring start n instring)])
       else raise (ExParseException loc) |}.

Definition STRING_LITERAL1 : ParserElement := delimited "'" "'" VStr.
Definition STRING_LITERAL2 : ParserElement := delimited "034" "034" VStr.
Definition LANGTAG : ParserElement :=
  prefixed "@" (fun c => is_alnum c || Ascii.eqb c "-") VStr.
Definition IRIREF : ParserElement := delimited "<" ">" VURIRef.
Definition BLANK_NODE_LABEL : ParserElement := prefixed "_:" is_alnum VBNode.

Definition number (digits : string) : Z :=
  fold_left (fun n c => (10 * n + Z.of_nat (nat_of_ascii c - 48))%Z)
            (list_ascii_of_string digits) 0%Z.

Definition NumericLiteral : ParserElement :=
  prefixed "" is_digit (fun d => RDFLiteral (VInt (number d)) VNone VNone).

Definition BooleanLiteral : ParserElement :=
  MatchFirst WHITE
    [setParseAction (Literal WHITE "true")
       (fun _ => ret [RDFLiteral (VBool true) VNone VNone]);
     setParseAction (Literal WHITE "false")
       (fun _ => ret [RDFLiteral (VBool false) VNone VNone])].

Definition Var : ParserElement :=
  MatchFirst WHITE [prefixed "?" is_alnum VVariable;
                    prefixed "$" is_alnum VVariable].

(** [tsvresults.parse] over these rules. *)
Definition parse (source : list string) : M Result :=
  parse no_fns WHITE STRING_LITERAL1 STRING_LITERAL2 LANGTAG IRIREF
        BLANK_NODE_LABEL NumericLiteral BooleanLiteral Var source.

End Terminals.

Definition empty_heap : Heap := MkHeap ∅ 0.

(** Productions for the examples: a Service Graph Pattern, the same with
    an evaluation function, one whose pattern matches two different texts,
    a list of items, and the sum of the spec's scenario. *)
Definition W : string := Terminals.WHITE.

Definition sgp_comp : Comp.t :=
  Comp.Make "ServiceGraphPattern" (Literal W "SERVICE") None.

Definition sgp_eval_comp : Comp.t := Comp.setEvalFn sgp_comp 0.

Definition sgp_two_comp : Comp.t :=
  Comp.Make "ServiceGraphPattern"
            (MatchFirst W [Literal W "SA"; Literal W "SB"]) None.

Definition items_comp : Comp.t := Comp.Make "Items" (Literal W "x") None.

Definition Number : ParserElement :=
  Terminals.prefixed "" Terminals.is_digit (fun d => VInt (Terminals.number d)).

Definition Sum : Comp.t :=
  Comp.setEvalFn
    (Comp.Make "Sum"
       (And (Param "x" Number false) [Literal W "+"; Param "y" Number false])
       None)
    0.

(** The lines of the spec's tabular scenarios. *)
Definition quote : string := String "034" EmptyString.
Definition NL : string := String newline EmptyString.
Definition header_ab : string := "?a" +:+ TAB +:+ "?b" +:+ NL.
Definition line_hi : string := quote +:+ "hi" +:+ quote +:+ "@en" +:+ TAB +:+ NL.
Definition line_42 : string := "42" +:+ TAB +:+ "true" +:+ NL.


Definition boom : SPARQLError := SPARQLError_ (Some "boom").

(** [Expr("Sum", f0, x=3, y=4)] and friends, each with its own identity. *)
Definition sum_node : Expr :=
  MkExpr (MkCompValue 0 "Sum" [("x", VInt 3); ("y", VInt 4)]) (Some 0).
Definition arg_node : Expr :=
  MkExpr (MkCompValue 1 "Arg" [("arg", VVariable "v")]) (Some 1).
Definition div_node : Expr :=
  MkExpr (MkCompValue 2 "Div" []) (Some 2).
Definition boom_node : Expr :=
  MkExpr (MkCompValue 3 "Boom" []) (Some 3).

(** The contexts [{}], [{?v: 5}] and [{?v: SPARQLError("boom")}]. *)
Definition ctx_empty : Ctx := ∅.
Definition ctx_v5 : Ctx := {[ KVariable "v" := VInt 5 ]}.
Definition ctx_verr : Ctx := {[ KVariable "v" := VError boom ]}.

End Samples.

(** * Properties *)

Section EvaluationProperties.

Variable evalfns : FnId -> Expr -> Ctx -> M Val.

Lemma set_ctx_run self c h : set_ctx self c h = (Ok tt, with_ctx self c h).
Proof. reflexivity. Qed.

Lemma with_ctx_lookup self c h : ctx_of (with_ctx self c h) !! oid self = Some c.
Proof. apply lookup_insert_eq. Qed.

(** [eval] in one equation: the function runs with the context attached;
    whatever it does, the context is reset in the heap it leaves. *)
Lemma eval_run self ctx h :
  eval evalfns self ctx h =
    let r := call_evalfn evalfns self ctx (with_ctx (base self) (Some ctx) h) in
    (match fst r with
     | Raise (ExSPARQL e) => Ok (VError e)
     | o => o
     end,
     with_ctx (base self) None (snd r)).
Proof.
  unfold eval, try_finally, try_except_SPARQLError, bind.
  rewrite set_ctx_run.
  destruct (call_evalfn _ _ _ _) as [[v|[]] h1]; reflexivity.
Qed.

(** C1. After every call of [eval], however the evaluation function
    left it (a value, an evaluation-domain error that [eval] turns into a
    value, any other exception that goes on to the caller), the node has
    no context: the attribute [ctx] holds [None] and reads as [None].
    The same holds when [value] is what evaluated the node. *)
Theorem eval_detaches_context (self : Expr) (ctx : Ctx) (h : Heap) :
  ctx_of (snd (eval evalfns self ctx h)) !! oid (base self) = Some None
  /\ read_ctx (base self) (snd (eval evalfns self ctx h))
     = (Ok None, snd (eval evalfns self ctx h))
  /\ (forall variables errors,
        ctx_of (snd (value evalfns ctx (VExpr self) variables errors h))
          !! oid (base self) = Some None).
Proof.
  assert (E : ctx_of (snd (eval evalfns self ctx h)) !! oid (base self)
              = Some None).
  { rewrite eval_run. cbn [snd]. apply with_ctx_lookup. }
  split; [exact E|]. split.
  - unfold read_ctx. rewrite E. reflexivity.
  - intros. exact E.
Qed.

End EvaluationProperties.

Section ValueProperties.

Variable evalfns : FnId -> Expr -> Ctx -> M Val.

(** C2. When the evaluation function raises an evaluation-domain error,
    [eval] returns the error object as its value; an exception of any
    other class goes on to the caller of [eval]; a returned value is
    returned.  In each case the heap is the one the function left, with
    the context of the node reset. *)
Theorem eval_returns_domain_errors (self : Expr) (ctx : Ctx) (h h1 : Heap) :
  (forall e,
      call_evalfn evalfns self ctx (with_ctx (base self) (Some ctx) h)
      = (Raise (ExSPARQL e), h1) ->
      eval evalfns self ctx h = (Ok (VError e), with_ctx (base self) None h1))
  /\ (forall x,
      call_evalfn evalfns self ctx (with_ctx (base self) (Some ctx) h)
      = (Raise x, h1) ->
      (forall e, x <> ExSPARQL e) ->
      eval evalfns self ctx h = (Raise x, with_ctx (base self) None h1))
  /\ (forall v,
      call_evalfn evalfns self ctx (with_ctx (base self) (Some ctx) h)
      = (Ok v, h1) ->
      eval evalfns self ctx h = (Ok v, with_ctx (base self) None h1)).
Proof.
  repeat split; intros until 1; rewrite eval_run, H; cbn.
  - reflexivity.
  - intros Hx. destruct x; try reflexivity. now contradiction (Hx e).
  - reflexivity.
Qed.

(** C3. [value] on a variable or a blank node [v]: a stored error is
    raised when [errors] is off; a bound value is returned; with no
    binding, [v] itself is returned when [variables] is on and
    [NotBoundError] is raised when it is off.  The heap is untouched. *)
Theorem value_of_placeholder (ctx : Ctx) (v : Val) (variables errors : bool)
        (h : Heap) :
  isinstance_BNode_Variable v = true ->
  (forall e, ctx_get ctx v = VError e -> errors = false ->
             value evalfns ctx v variables errors h = (Raise (ExSPARQL e), h))
  /\ (forall r, ctx_get ctx v = r -> r <> VNone ->
                isinstance_SPARQLError r = false \/ errors = true ->
                value evalfns ctx v variables errors h = (Ok r, h))
  /\ (ctx_get ctx v = VNone -> variables = true ->
      value evalfns ctx v variables errors h = (Ok v, h))
  /\ (ctx_get ctx v = VNone -> variables = false ->
      value evalfns ctx v variables errors h
      = (Raise (ExSPARQL (NotBoundError None)), h)).
Proof.
  intros Hv.
  assert (E : value evalfns ctx v variables errors =
              let r := ctx_get ctx v in
              if isinstance_SPARQLError r && negb errors then raise_value r
              else if negb (is_None r) then ret r
              else if variables then ret v
              else raise (ExSPARQL (NotBoundError None))).
  { destruct v; try discriminate Hv; reflexivity. }
  rewrite E; clear E. cbv zeta. repeat split.
  - intros e -> ->. reflexivity.
  - intros r -> Hr Hor.
    assert (isinstance_SPARQLError r && negb errors = false) as ->.
    { destruct Hor as [-> | ->]; [reflexivity | apply andb_false_r]. }
    destruct r; try reflexivity. now contradiction Hr.
  - intros -> ->. reflexivity.
  - intros -> ->. reflexivity.
Qed.

(** C8. [value] is the identity on every value that is none of: an
    evaluable node, another node, a list, a variable or blank node, a
    match sequence of one element. *)
Theorem value_identity (ctx : Ctx) (v : Val) (variables errors : bool)
        (h : Heap) :
  isinstance_Expr v = false ->
  isinstance_CompValue v = false ->
  isinstance_list v = false ->
  isinstance_BNode_Variable v = false ->
  is_single_ParseResults v = false ->
  value evalfns ctx v variables errors h = (Ok v, h).
Proof.
  intros H1 H2 H3 H4 H5.
  destruct v; try discriminate; try reflexivity.
  destruct l as [|x [|y l]]; try discriminate; reflexivity.
Qed.

End ValueProperties.

(** ** The ordered dictionary *)

Module OrderedDictFacts.
Import OrderedDict.

Lemma get_setitem_eq a v d : get a (setitem a v d) = Some v.
Proof.
  induction d as [|[k w] d IH]; cbn.
  - now rewrite String.eqb_refl.
  - destruct (String.eqb k a) eqn:E; cbn; rewrite E; auto.
Qed.

Lemma get_setitem_ne a b v d : a <> b -> get b (setitem a v d) = get b d.
Proof.
  intros Hab. induction d as [|[k w] d IH]; cbn.
  - destruct (String.eqb_spec a b); [contradiction | reflexivity].
  - destruct (String.eqb_spec k a) as [->|Hk]; cbn.
    + destruct (String.eqb_spec a b); [contradiction | reflexivity].
    + now rewrite IH.
Qed.

Lemma get_setitem a b v d :
  get b (setitem a v d) = if String.eqb a b then Some v else get b d.
Proof.
  destruct (String.eqb_spec a b) as [->|H].
  - apply get_setitem_eq.
  - now apply get_setitem_ne.
Qed.

Lemma get_None_keys a d : get a d = None <-> a ∉ keys d.
Proof.
  unfold keys. induction d as [|[k w] d IH]; cbn.
  - split; [intros _; apply not_elem_of_nil | reflexivity].
  - rewrite not_elem_of_cons.
    destruct (String.eqb_spec k a) as [->|Hk]; split.
    + discriminate.
    + intros [H _]. now contradiction H.
    + intros H. split; [congruence | now apply IH].
    + intros [_ H]. now apply IH.
Qed.

Lemma get_Some_keys a d : is_Some (get a d) <-> a ∈ keys d.
Proof.
  rewrite <- not_eq_None_Some, get_None_keys.
  destruct (decide (a ∈ keys d)); tauto.
Qed.

Lemma contains_get a d : contains a d = false <-> get a d = None.
Proof. unfold contains. destruct (get a d); split; congruence. Qed.

Lemma keys_setitem a b v d : b ∈ keys (setitem a v d) <-> b = a \/ b ∈ keys d.
Proof.
  rewrite <- !get_Some_keys, get_setitem.
  destruct (String.eqb_spec a b) as [->|H].
  - split; [now left | intros _; eexists; reflexivity].
  - split; [now right | intros [->|]; [contradiction | assumption]].
Qed.

Lemma NoDup_keys_setitem a v d : NoDup (keys d) -> NoDup (keys (setitem a v d)).
Proof.
  unfold keys. induction d as [|[k w] d IH]; cbn; intros Hd.
  - apply NoDup_singleton.
  - apply NoDup_cons in Hd as [Hk Hd].
    destruct (String.eqb_spec k a) as [->|Hka]; cbn.
    + now apply NoDup_cons.
    + apply NoDup_cons. split; [|auto].
      change (k ∉ keys (setitem a v d)). rewrite keys_setitem.
      intros [->|H]; [congruence | contradiction].
Qed.

End OrderedDictFacts.

Section NodeProperties.

Variable evalfns : FnId -> Expr -> Ctx -> M Val.
Variable DEFAULT_WHITE_CHARS : string.

Import OrderedDictFacts.

(** Reading [self.ctx] leaves the heap as it is. *)
Lemma read_ctx_heap self h : snd (read_ctx self h) = h.
Proof.
  unfold read_ctx. destruct (ctx_of h !! oid self); [reflexivity|].
  destruct (OrderedDict.get "ctx" (items self)); reflexivity.
Qed.

Lemma read_ctx_unset self h :
  ctx_of h !! oid self = None ->
  read_ctx self h =
    (if OrderedDict.contains "ctx" (items self) then Raise ExRecursionError else Ok None, h).
Proof.
  intros E. unfold read_ctx, OrderedDict.contains. rewrite E.
  destruct (OrderedDict.get "ctx" (items self)); reflexivity.
Qed.

(** [get] with a context attached resolves the stored value, or the key
    when there is none, with [errors] off whatever the caller passed;
    without a context it returns that value as it is. *)
Lemma get_run self a variables errors h :
  get evalfns self a variables errors h =
    match read_ctx self h with
    | (Ok (Some ctx), _) =>
        value evalfns ctx (default (VStr a) (OrderedDict.get a (items self)))
              variables false h
    | (Ok None, _) =>
        (Ok (default (VStr a) (OrderedDict.get a (items self))), h)
    | (Raise e, _) => (Raise e, h)
    end.
Proof.
  unfold get, _value, bind.
  pose proof (read_ctx_heap self h) as Hh.
  destruct (read_ctx self h) as [[[c|]|e] h1]; cbn in Hh; subst h1; reflexivity.
Qed.

Lemma getitem_run self a h :
  __getitem__ evalfns self a h =
    match OrderedDict.get a (items self) with
    | None => (Raise (ExKeyError a), h)
    | Some raw =>
        match read_ctx self h with
        | (Ok (Some ctx), _) => value evalfns ctx raw false false h
        | (Ok None, _) => (Ok raw, h)
        | (Raise e, _) => (Raise e, h)
        end
    end.
Proof.
  unfold __getitem__, _value, bind.
  destruct (OrderedDict.get a (items self)) as [raw|]; [|reflexivity].
  pose proof (read_ctx_heap self h) as Hh.
  destruct (read_ctx self h) as [[[c|]|e] h1]; cbn in Hh; subst h1; reflexivity.
Qed.


(** ** The loop of [postParse] on a node without a context *)

Lemma setitem_fields res a v :
  setitem res a v = MkCompValue (oid res) (name res)
                                (OrderedDict.setitem a v (items res)).
Proof. reflexivity. Qed.

Lemma CompValue_eta res : res = MkCompValue (oid res) (name res) (items res).
Proof. now destruct res. Qed.

(** [append] on a value without the method never returns. *)
Lemma append_run cur x h :
  match appended cur x with
  | Some cur' => append evalfns cur x h = (Ok cur', h)
  | None => exists e h', append evalfns cur x h = (Raise e, h')
  end.
Proof.
  destruct cur; cbn [appended append]; try reflexivity;
    try (eexists _, _; reflexivity).
  - unfold bind. destruct (__getattr__ evalfns c "append" h) as [[v|e] h'];
      eexists _, _; reflexivity.
  - unfold bind.
    destruct (__getattr__ evalfns (base e) "append" h) as [[v|e'] h'];
      eexists _, _; reflexivity.
Qed.

Lemma postParse_token_fresh res t h res' h' :
  ctx_of h !! oid res = None ->
  postParse_token evalfns res t h = (Ok res', h') <->
  h' = h /\ exists d, token_items (items res) t = Some d
                      /\ res' = MkCompValue (oid res) (name res) d.
Proof.
  intros Hfresh.
  assert (Hplain : ret res h = (Ok res', h') <->
                   h' = h /\ exists d, Some (items res) = Some d
                      /\ res' = MkCompValue (oid res) (name res) d).
  { unfold ret. rewrite (CompValue_eta res) at 1. split.
    - intros [= <- <-]. eauto.
    - intros [-> (d & [= <-] & ->)]. reflexivity. }
  destruct t as [ | | | | | | | | | | | |n tokenList isList| | | ];
    try exact Hplain. clear Hplain.
  cbn [postParse_token token_items]. destruct isList.
  2:{ unfold ret. rewrite setitem_fields. split.
      - intros [= <- <-]. eauto.
      - intros [-> (d & [= <-] & ->)]. reflexivity. }
  set (res1 := if OrderedDict.contains n (items res) then res
               else setitem res n (VPlist [])).
  set (d1 := if OrderedDict.contains n (items res) then items res
             else OrderedDict.setitem n (VPlist []) (items res)).
  assert (E1 : res1 = MkCompValue (oid res) (name res) d1).
  { subst res1 d1. destruct (OrderedDict.contains n (items res));
      [apply CompValue_eta | apply setitem_fields]. }
  assert (Hfresh1 : ctx_of h !! oid res1 = None) by now rewrite E1.
  unfold bind at 1. rewrite getitem_run, (read_ctx_unset _ _ Hfresh1).
  replace (items res1) with d1 by now rewrite E1.
  destruct (OrderedDict.get n d1) as [raw|] eqn:Eraw.
  2:{ exfalso. subst d1. destruct (OrderedDict.contains n (items res)) eqn:Ec.
      - unfold OrderedDict.contains in Ec. now rewrite Eraw in Ec.
      - now rewrite get_setitem_eq in Eraw. }
  destruct (OrderedDict.contains "ctx" d1).
  { split; [discriminate | intros [_ (d & [=] & _)]]. }
  cbn [mbind option_bind]. unfold bind.
  pose proof (append_run raw tokenList h) as Happ.
  destruct (appended raw tokenList) as [cur'|].
  - rewrite Happ. unfold ret. rewrite setitem_fields, E1. cbn. split.
    + intros [= <- <-]. eauto.
    + intros [-> (d & [= <-] & ->)]. reflexivity.
  - destruct Happ as (e & h2 & ->). split; [discriminate|].
    intros [_ (d & [=] & _)].
Qed.

Lemma postParse_tokens_fresh tokenList : forall res h res' h',
  ctx_of h !! oid res = None ->
  postParse_tokens evalfns res tokenList h = (Ok res', h') <->
  h' = h /\ exists d, tokens_items (items res) tokenList = Some d
                      /\ res' = MkCompValue (oid res) (name res) d.
Proof.
  induction tokenList as [|t rest IH]; intros res h res' h' Hfresh.
  - cbn. unfold ret. rewrite (CompValue_eta res) at 1. split.
    + intros [= <- <-]. eauto.
    + intros [-> (d & [= <-] & ->)]. reflexivity.
  - cbn [postParse_tokens tokens_items]. unfold bind.
    destruct (postParse_token evalfns res t h) as [[r1|e] h1] eqn:E1.
    + apply postParse_token_fresh in E1 as [-> (d1 & Ed1 & ->)]; [|assumption].
      rewrite Ed1. cbn [mbind option_bind]. rewrite IH by assumption.
      reflexivity.
    + split; [discriminate|]. intros [-> (d & Hd & ->)].
      destruct (token_items (items res) t) as [d1|] eqn:Ed1; [|discriminate].
      exfalso.
      assert (postParse_token evalfns res t h
              = (Ok (MkCompValue (oid res) (name res) d1), h)) as E2.
      { apply postParse_token_fresh; eauto. }
      congruence.
Qed.

End NodeProperties.

(** ** The loop of [postParse] as a function on the dictionary *)

Module TokenFacts.
Import OrderedDictFacts.

(** A [ParamList] token, by whether its name is a key already. *)
Lemma token_items_ParamList n v d :
  token_items d (VParamValue n v true) =
    match OrderedDict.get n d with
    | Some cur =>
        if OrderedDict.contains "ctx" d then None
        else cur' ← appended cur v ; Some (OrderedDict.setitem n cur' d)
    | None =>
        if String.eqb n "ctx" || OrderedDict.contains "ctx" d then None
        else Some (OrderedDict.setitem n (VPlist [v])
                     (OrderedDict.setitem n (VPlist []) d))
    end.
Proof.
  cbn [token_items]. unfold OrderedDict.contains.
  destruct (OrderedDict.get n d) as [cur|] eqn:E.
  - rewrite E. reflexivity.
  - rewrite get_setitem, get_setitem_eq.
    destruct (String.eqb n "ctx"); [reflexivity|]. cbn.
    destruct (OrderedDict.get "ctx" d); reflexivity.
Qed.

Lemma token_items_other d t d' a :
  token_items d t = Some d' -> label t <> Some a ->
  OrderedDict.get a d' = OrderedDict.get a d.
Proof.
  destruct t as [ | | | | | | | | | | | |n v isList| | | ];
    try (cbn [token_items]; intros [= <-] _; reflexivity).
  intros H Hn. cbn [label] in Hn.
  assert (n <> a) as Hna by congruence. destruct isList.
  - rewrite token_items_ParamList in H.
    destruct (OrderedDict.get n d) as [cur|].
    + destruct (OrderedDict.contains "ctx" d); [discriminate|].
      destruct (appended cur v); [|discriminate].
      injection H as <-. now rewrite get_setitem_ne.
    + destruct (_ || _); [discriminate|].
      injection H as <-. now rewrite !get_setitem_ne.
  - injection H as <-. now rewrite get_setitem_ne.
Qed.

Lemma uses_cons b n t rest :
  uses b n (t :: rest) = labelled_by b n t || uses b n rest.
Proof. reflexivity. Qed.

Lemma labelled_by_label b n t : labelled_by b n t = true -> label t = Some n.
Proof.
  destruct t; cbn; try discriminate.
  intros H%andb_true_iff. destruct H as [H%String.eqb_eq _]. now subst.
Qed.

Lemma label_labelled_by n t :
  label t = Some n -> labelled_by true n t = true \/ labelled_by false n t = true.
Proof.
  destruct t; cbn; try discriminate. intros [= ->].
  rewrite String.eqb_refl. destruct isList; auto.
Qed.

(** With plain [Param] tokens only, the loop never raises and each name
    ends up with the value of its last token. *)
Lemma tokens_items_scalar tokenList : forall d,
  scalar_only tokenList = true ->
  exists d', tokens_items d tokenList = Some d'
    /\ (forall a, OrderedDict.get a d' =
                  match last_value a tokenList with
                  | Some v => Some v
                  | None => OrderedDict.get a d
                  end)
    /\ (NoDup (OrderedDict.keys d) -> NoDup (OrderedDict.keys d')).
Proof.
  induction tokenList as [|t rest IH]; intros d Hs.
  - exists d. cbn. auto.
  - cbn in Hs. apply andb_true_iff in Hs as [Ht Hrest].
    assert (exists d1, token_items d t = Some d1
              /\ (forall a, OrderedDict.get a d1 =
                    match t with
                    | VParamValue m v _ =>
                        if String.eqb m a then Some v else OrderedDict.get a d
                    | _ => OrderedDict.get a d
                    end)
              /\ (NoDup (OrderedDict.keys d) -> NoDup (OrderedDict.keys d1)))
      as (d1 & E1 & G1 & N1).
    { destruct t as [ | | | | | | | | | | | |n v isList| | | ];
        try (exists d; cbn; split; [reflexivity|split; [reflexivity|tauto]]).
      destruct isList; [discriminate|].
      exists (OrderedDict.setitem n v d). cbn. split; [reflexivity|].
      split; [intros a; apply get_setitem | apply NoDup_keys_setitem]. }
    destruct (IH d1 Hrest) as (d' & E' & G' & N').
    exists d'. cbn [tokens_items]. rewrite E1. cbn. split; [exact E'|].
    split; [|auto].
    intros a. rewrite G'. cbn [last_value].
    destruct (last_value a rest); [reflexivity|]. rewrite G1.
    destruct t; try reflexivity.
    destruct (String.eqb name0 a); reflexivity.
Qed.

Lemma last_value_labels a tokenList :
  is_Some (last_value a tokenList) <-> a ∈ labels tokenList.
Proof.
  unfold labels. rewrite list_elem_of_omap.
  induction tokenList as [|t rest IH]; cbn [last_value].
  - split; [intros [? [=]] | intros (t & []%elem_of_nil & _)].
  - destruct (last_value a rest) as [v|].
    + split; [|eauto]. intros _.
      destruct IH as [(t' & Hin & Hl) _]; [eauto|].
      exists t'. split; [now apply elem_of_cons; right | exact Hl].
    + assert (is_Some (match t with
                       | VParamValue m v _ =>
                           if String.eqb m a then Some v else None
                       | _ => None
                       end) <-> label t = Some a) as Ht.
      { destruct t as [ | | | | | | | | | | | |m v isList| | | ]; cbn;
          try solve [split; [intros [? [=]] | intros [=]]].
        destruct (String.eqb_spec m a) as [->|Hm].
        - split; eauto.
        - split; [intros [? [=]] | intros [=]; contradiction]. }
      rewrite Ht. split.
      * intros Hl. exists t. split; [apply elem_of_cons; now left | exact Hl].
      * intros (t' & [->|Hin]%elem_of_cons & Hl); [exact Hl|].
        destruct IH as [_ IH]. destruct IH as [? [=]]. eauto.
Qed.

(** A name that only [ParamList] tokens carry collects their values. *)
Lemma tokens_items_list n tokenList : forall d d' l0,
  uses false n tokenList = false ->
  tokens_items d tokenList = Some d' ->
  OrderedDict.get n d = Some (VPlist l0)
  \/ (OrderedDict.get n d = None /\ l0 = []) ->
  OrderedDict.get n d' =
    match values_of n tokenList with
    | [] => OrderedDict.get n d
    | vs => Some (VPlist (l0 ++ vs))
    end.
Proof.
  induction tokenList as [|t rest IH]; intros d d' l0 Hu Hd Hn.
  - cbn in *. congruence.
  - cbn [tokens_items] in Hd.
    destruct (token_items d t) as [d1|] eqn:E1; [|discriminate]. cbn in Hd.
    rewrite uses_cons in Hu. apply orb_false_iff in Hu as [Ht Hu].
    destruct (decide (label t = Some n)) as [Hl|Hl].
    + destruct t as [ | | | | | | | | | | | |m v isList| | | ];
        try discriminate.
      cbn in Hl. injection Hl as ->.
      cbn in Ht. rewrite String.eqb_refl in Ht. destruct isList; [|discriminate].
      cbn [values_of]. rewrite String.eqb_refl.
      assert (OrderedDict.get n d1 = Some (VPlist (l0 ++ [v]))) as G1.
      { rewrite token_items_ParamList in E1.
        destruct Hn as [Hn | [Hn ->]]; rewrite Hn in E1.
        - destruct (OrderedDict.contains "ctx" d); [discriminate|].
          cbn in E1. injection E1 as <-. apply get_setitem_eq.
        - destruct (_ || _); [discriminate|].
          injection E1 as <-. apply get_setitem_eq. }
      rewrite (IH d1 d' (l0 ++ [v]) Hu Hd (or_introl G1)).
      destruct (values_of n rest) as [|w ws].
      * exact G1.
      * now rewrite <- app_assoc.
    + assert (values_of n (t :: rest) = values_of n rest) as ->.
      { destruct t; try reflexivity. cbn.
        destruct (String.eqb_spec name0 n) as [->|]; [|reflexivity].
        now contradiction Hl. }
      rewrite <- (token_items_other _ _ _ _ E1 Hl).
      apply (IH d1 d' l0 Hu Hd).
      now rewrite (token_items_other _ _ _ _ E1 Hl).
Qed.

(** When the name holds a value without [append], the first [ParamList]
    token for it makes the loop raise. *)
Lemma tokens_items_no_append n tokenList : forall d raw,
  uses false n tokenList = false ->
  uses true n tokenList = true ->
  OrderedDict.get n d = Some raw ->
  (forall x, appended raw x = None) ->
  tokens_items d tokenList = None.
Proof.
  induction tokenList as [|t rest IH]; intros d raw Hf Ht Hn Hraw.
  - discriminate.
  - rewrite uses_cons in Hf, Ht. apply orb_false_iff in Hf as [Hf1 Hf2].
    cbn [tokens_items].
    destruct (token_items d t) as [d1|] eqn:E1; [|reflexivity]. cbn.
    destruct (decide (label t = Some n)) as [Hl|Hl].
    + exfalso.
      destruct t as [ | | | | | | | | | | | |m v isList| | | ];
        try discriminate.
      cbn in Hl. injection Hl as ->.
      cbn in Hf1. rewrite String.eqb_refl in Hf1.
      destruct isList; [|discriminate].
      rewrite token_items_ParamList, Hn in E1.
      destruct (OrderedDict.contains "ctx" d); [discriminate|].
      cbn in E1. now rewrite Hraw in E1.
    + apply (IH d1 raw Hf2); [| |exact Hraw].
      * destruct (labelled_by true n t) eqn:El; [|exact Ht].
        now apply labelled_by_label in El.
      * now rewrite (token_items_other _ _ _ _ E1 Hl).
Qed.

Lemma consistent_spec tokenList n :
  consistent tokenList = true ->
  uses true n tokenList = true -> uses false n tokenList = false.
Proof.
  unfold consistent, uses. rewrite forallb_forall.
  intros Hc (t & Hin & Ht)%existsb_exists.
  specialize (Hc t Hin). rewrite (labelled_by_label _ _ _ Ht) in Hc.
  apply negb_true_iff, andb_false_iff in Hc as [Hc|Hc]; [|exact Hc].
  rewrite <- not_true_iff_false in Hc. contradiction Hc.
  apply existsb_exists. eauto.
Qed.

(** The loop does not raise when no token is named ["ctx"], no name is
    used both ways, and every name a [ParamList] token carries is absent
    from the dictionary or holds a list of its own. *)
Lemma tokens_items_total tokenList : forall d,
  OrderedDict.get "ctx" d = None ->
  uses true "ctx" tokenList = false ->
  uses false "ctx" tokenList = false ->
  (forall n, uses true n tokenList = true -> uses false n tokenList = false) ->
  (forall n, uses true n tokenList = true ->
             OrderedDict.get n d = None
             \/ exists l, OrderedDict.get n d = Some (VPlist l)) ->
  is_Some (tokens_items d tokenList).
Proof.
  induction tokenList as [|t rest IH]; intros d Hctx Hct Hcf Hcons Hready.
  - cbn. eauto.
  - rewrite uses_cons in Hct, Hcf.
    apply orb_false_iff in Hct as [Hct1 Hct2].
    apply orb_false_iff in Hcf as [Hcf1 Hcf2].
    assert (Hcons' : forall n, uses true n rest = true ->
                               uses false n rest = false).
    { intros n Hn. specialize (Hcons n). rewrite !uses_cons, Hn in Hcons.
      rewrite orb_true_r in Hcons. specialize (Hcons eq_refl).
      now apply orb_false_iff in Hcons as [_ ?]. }
    cbn [tokens_items].
    destruct t as [ | | | | | | | | | | | |m v isList| | | ];
      try (cbn; apply IH; auto; intros n Hn; apply Hready;
           rewrite uses_cons, Hn; apply orb_true_r).
    assert (m <> "ctx") as Hm.
    { intros ->. cbn in Hct1, Hcf1. destruct isList; discriminate. }
    destruct isList.
    + assert (uses true m (VParamValue m v true :: rest) = true) as Hu.
      { rewrite uses_cons. cbn. now rewrite String.eqb_refl. }
      rewrite token_items_ParamList.
      assert (OrderedDict.contains "ctx" d = false) as Hc.
      { now apply contains_get. }
      destruct (Hready m Hu) as [Hg | [l Hg]]; rewrite Hg, Hc.
      * destruct (String.eqb_spec m "ctx") as [|_]; [contradiction|].
        cbn. apply IH; auto.
        -- now rewrite get_setitem_ne, get_setitem_ne.
        -- intros n Hn. rewrite !get_setitem.
           destruct (String.eqb m n); [right; eauto|].
           apply Hready. rewrite uses_cons, Hn. apply orb_true_r.
      * cbn. apply IH; auto.
        -- now rewrite get_setitem_ne.
        -- intros n Hn. rewrite !get_setitem.
           destruct (String.eqb m n); [right; eauto|].
           apply Hready. rewrite uses_cons, Hn. apply orb_true_r.
    + cbn. apply IH; auto.
      * now rewrite get_setitem_ne.
      * intros n Hn. rewrite get_setitem_ne.
        -- apply Hready. rewrite uses_cons, Hn. apply orb_true_r.
        -- intros ->. specialize (Hcons n).
           rewrite !uses_cons, Hn, orb_true_r in Hcons.
           specialize (Hcons eq_refl). cbn in Hcons.
           now rewrite String.eqb_refl in Hcons.
Qed.

End TokenFacts.

Section PostParseProperties.

Variable evalfns : FnId -> Expr -> Ctx -> M Val.
Variable DEFAULT_WHITE_CHARS : string.

Import OrderedDictFacts TokenFacts.

Lemma alloc_run h :
  alloc h = (Ok (next_oid h), snd (alloc h))
  /\ ctx_of (snd (alloc h)) !! next_oid h = None.
Proof. split; [reflexivity | apply lookup_delete_eq]. Qed.

(** Every match of [originalTextFor] carries one token, the text between
    its start and its end. *)
Lemma scanString_originalTextFor white e instring fuel : forall loc h ms h',
  scanString (originalTextFor white e) instring loc fuel h = (Ok ms, h') ->
  Forall (fun m => fst (fst m) = [VStr (slice instring (snd (fst m)) (snd m))])
         ms.
Proof.
  induction fuel as [|fuel IH]; intros loc h ms h'; cbn [scanString].
  - intros [= <- _]. constructor.
  - destruct (Nat.ltb _ loc); [intros [= <- _]; constructor|].
    unfold bind at 1, try_ParseException.
    cbn [parseImpl originalTextFor]. unfold bind at 1.
    set (preloc := preParse _ instring loc).
    destruct (_parse e instring preloc h) as [[[stop tk]|[]] h1];
      try discriminate; try (apply IH).
    cbn [fst snd]. unfold ret at 1.
    destruct (Nat.ltb loc stop); [|apply IH].
    unfold bind.
    destruct (scanString _ instring stop fuel h1) as [[rest|] h2] eqn:E;
      [|discriminate].
    intros [= <- _]. constructor; [reflexivity | eapply IH, E].
Qed.

(** [postParse], by the two kinds of production. *)
Lemma postParse_run self instring loc tokenList h :
  postParse evalfns DEFAULT_WHITE_CHARS self instring loc tokenList h =
    if is_ServiceGraphPattern self then
      match scanString (sgp DEFAULT_WHITE_CHARS self) (expandtabs instring) 0
                (S (String.length (expandtabs instring)))
                       (snd (alloc h)) with
      | (Ok ((tk :: _, _, _) :: _), h2) =>
          (res <- postParse_tokens evalfns
                    (MkCompValue (next_oid h) (Comp.name self)
                                 [("service_string", tk)]) tokenList ;;
           ret (VCompValue res)) h2
      | (Ok _, h2) => (Raise ExIndexError, h2)
      | (Raise e, h2) => (Raise e, h2)
      end
    else
      (res <- postParse_tokens evalfns
                (MkCompValue (next_oid h) (Comp.name self) []) tokenList ;;
       ret (built self res)) (snd (alloc h)).
Proof.
  unfold postParse, is_ServiceGraphPattern, built.
  destruct (Comp.evalfn self) as [f|].
  - reflexivity.
  - destruct (String.eqb (Comp.name self) "ServiceGraphPattern").
    + unfold alloc, searchString, sgp. cbn [snd]. unfold bind.
      destruct (scanString _ _ _ _ _) as [[ms|e] h2]; [|reflexivity].
      destruct ms as [|[[tks start] stop] more]; [reflexivity|].
      destruct tks as [|tk tks]; reflexivity.
    + reflexivity.
Qed.

(** A turn of the loop leaves the other keys alone, whatever the heap. *)
Lemma postParse_token_other res t h res' h' a :
  postParse_token evalfns res t h = (Ok res', h') ->
  label t <> Some a ->
  OrderedDict.get a (items res') = OrderedDict.get a (items res).
Proof.
  destruct t as [ | | | | | | | | | | | |n v isList| | | ];
    try (intros [= <- _] _; reflexivity).
  cbn [postParse_token label]. intros H Hn.
  assert (n <> a) as Hna by congruence. destruct isList.
  - unfold bind in H.
    destruct (__getitem__ _ _ _ _) as [[cur|] h1]; [|discriminate].
    destruct (append _ _ _ _) as [[cur'|] h2]; [|discriminate].
    injection H as <- _. cbn. rewrite get_setitem_ne by assumption.
    destruct (OrderedDict.contains n (items res)); [reflexivity|].
    cbn. now rewrite get_setitem_ne.
  - injection H as <- _. cbn. now rewrite get_setitem_ne.
Qed.

Lemma postParse_tokens_other tokenList : forall res h res' h' a,
  postParse_tokens evalfns res tokenList h = (Ok res', h') ->
  uses true a tokenList = false -> uses false a tokenList = false ->
  OrderedDict.get a (items res') = OrderedDict.get a (items res).
Proof.
  induction tokenList as [|t rest IH]; intros res h res' h' a.
  - intros [= <- _] _ _. reflexivity.
  - cbn [postParse_tokens]. unfold bind.
    destruct (postParse_token evalfns res t h) as [[r1|] h1] eqn:E1;
      [|discriminate].
    rewrite !uses_cons. intros H [Ht1 Ht2]%orb_false_iff [Hf1 Hf2]%orb_false_iff.
    rewrite (IH _ _ _ _ _ H Ht2 Hf2).
    apply (postParse_token_other _ _ _ _ _ _ E1).
    intros [?|?]%label_labelled_by; congruence.
Qed.

(** With plain [Param] tokens only the loop is the function on the
    dictionary, whatever the heap. *)
Lemma postParse_tokens_scalar tokenList : forall res h d',
  scalar_only tokenList = true ->
  tokens_items (items res) tokenList = Some d' ->
  postParse_tokens evalfns res tokenList h
  = (Ok (MkCompValue (oid res) (name res) d'), h).
Proof.
  induction tokenList as [|t rest IH]; intros res h d' Hs.
  - cbn. intros [= <-]. now rewrite <- CompValue_eta.
  - cbn in Hs. apply andb_true_iff in Hs as [Ht Hs].
    cbn [tokens_items postParse_tokens]. unfold bind.
    destruct t as [ | | | | | | | | | | | |n v isList| | | ];
      try (cbn; apply IH; assumption).
    destruct isList; [discriminate|]. cbn.
    intros H. now apply (IH (setitem res n v)).
Qed.

Lemma values_of_uses n tokenList :
  values_of n tokenList <> [] -> uses false n tokenList = false ->
  uses true n tokenList = true.
Proof.
  induction tokenList as [|t rest IH]; [intros H; now contradiction H|].
  rewrite !uses_cons. intros Hv [Ht Hf]%orb_false_iff.
  destruct t as [ | | | | | | | | | | | |m v isList| | | ];
    try (cbn; apply IH; assumption).
  cbn in Hv, Ht |- *. destruct (String.eqb m n).
  - destruct isList; [reflexivity | discriminate].
  - apply IH; assumption.
Qed.

Lemma values_of_nil n tokenList :
  values_of n tokenList = [] ->
  uses true n tokenList = false /\ uses false n tokenList = false.
Proof.
  induction tokenList as [|t rest IH]; [split; reflexivity|].
  rewrite !uses_cons.
  destruct t as [ | | | | | | | | | | | |m v isList| | | ];
    try (cbn; exact IH).
  cbn. destruct (String.eqb m n); [discriminate|]. cbn. exact IH.
Qed.

(** C5, as amended.  In a production that is not a Service Graph
    Pattern without evaluation function, with labelled tokens from plain
    [Param]s only: [postParse] returns a node, never raises; the keys of
    the node are the names of the labelled tokens, each once, whatever
    other tokens the sequence holds; and each key holds the value of the
    last token of that name. *)
Theorem postParse_scalar_names (self : Comp.t) (instring : string)
        (loc : nat) (tokenList : list Val) (h : Heap) :
  scalar_only tokenList = true ->
  is_ServiceGraphPattern self = false ->
  exists c,
    postParse evalfns DEFAULT_WHITE_CHARS self instring loc tokenList h = (Ok (built self c), snd (alloc h))
    /\ name c = Comp.name self
    /\ NoDup (OrderedDict.keys (items c))
    /\ (forall a, a ∈ OrderedDict.keys (items c) <-> a ∈ labels tokenList)
    /\ (forall a, OrderedDict.get a (items c) = last_value a tokenList).
Proof.
  intros Hs Hsgp.
  destruct (tokens_items_scalar tokenList [] Hs) as (d & Ed & Gd & Nd).
  exists (MkCompValue (next_oid h) (Comp.name self) d).
  rewrite postParse_run, Hsgp. unfold bind.
  rewrite (postParse_tokens_scalar
             _ (MkCompValue (next_oid h) (Comp.name self) []) _ d Hs Ed).
  cbn [oid name items].
  split; [reflexivity|]. split; [reflexivity|].
  split; [apply Nd, NoDup_nil_2|].
  assert (forall a, OrderedDict.get a d = last_value a tokenList) as G.
  { intros a. rewrite Gd. now destruct (last_value a tokenList). }
  split; [|exact G].
  intros a. now rewrite <- get_Some_keys, G, last_value_labels.
Qed.

(** C6.  Let [n] be a name that only [ParamList] tokens of the
    production carry.  Whenever [postParse] returns a node and [n] labels
    a token, the attribute [n] of the node is a [plist] of the values of
    these tokens, as many as there are and in match order; a token a
    [ParamList] made from a match carries the collapsed match; [postParse]
    does return a node when the production is no Service Graph Pattern, no
    name is used by a [Param] and by a [ParamList] alike and none is
    ["ctx"]; and the list is made by the first token: where [n] labels no
    token, the node has no attribute [n].  For a Service Graph Pattern,
    matching the pattern again is taken not to attach a context to the
    node under construction. *)
Theorem postParse_list_attribute (self : Comp.t) (instring : string)
        (loc : nat) (tokenList : list Val) (n : string) (h : Heap) :
  uses false n tokenList = false ->
  (is_ServiceGraphPattern self = true ->
   forall ms h2,
     scanString (sgp DEFAULT_WHITE_CHARS self) (expandtabs instring) 0
                (S (String.length (expandtabs instring)))
                (snd (alloc h)) = (Ok ms, h2) ->
     ctx_of h2 !! next_oid h = None) ->
  (values_of n tokenList <> [] ->
   forall v h',
      postParse evalfns DEFAULT_WHITE_CHARS self instring loc tokenList h = (Ok v, h') ->
      exists c, v = built self c
                /\ OrderedDict.get n (items c)
                   = Some (VPlist (values_of n tokenList))
                /\ length (values_of n tokenList)
                   = length (filter (fun t => label t = Some n) tokenList))
  /\ (forall raws,
         values_of n (map (Param.postParse2 n true) raws)
         = map (fun raw => collapse (VParseResults raw)) raws)
  /\ (is_ServiceGraphPattern self = false ->
      consistent tokenList = true ->
      uses true "ctx" tokenList = false ->
      uses false "ctx" tokenList = false ->
      exists v, postParse evalfns DEFAULT_WHITE_CHARS self instring loc tokenList h = (Ok v, snd (alloc h)))
  /\ (values_of n tokenList = [] ->
      (is_ServiceGraphPattern self = true -> n <> "service_string") ->
      forall v h',
        postParse evalfns DEFAULT_WHITE_CHARS self instring loc tokenList h = (Ok v, h') ->
        exists c, v = built self c /\ OrderedDict.get n (items c) = None).
Proof.
  intros Hf Hfresh. split; [|split; [|split]].
  - intros Hv v h'. rewrite postParse_run.
    assert (Hlen : length (values_of n tokenList)
                   = length (filter (fun t => label t = Some n) tokenList)).
    { clear. induction tokenList as [|t rest IH]; [reflexivity|].
      destruct t as [ | | | | | | | | | | | |m v isList| | | ];
        try (cbn; exact IH).
      cbn [values_of]. rewrite filter_cons. cbn [label].
      destruct (String.eqb_spec m n) as [->|Hm].
      - rewrite decide_True by reflexivity. cbn. now rewrite IH.
      - rewrite decide_False by congruence. exact IH. }
    destruct (is_ServiceGraphPattern self) eqn:Hsgp.
    + destruct (scanString _ _ _ _ _) as [[ms|e] h2] eqn:Escan;
        [|discriminate].
      specialize (Hfresh eq_refl _ _ eq_refl).
      pose proof (scanString_originalTextFor _ _ _ _ _ _ _ _ Escan) as Htxt.
      destruct ms as [|[[tks start] stop] more]; [discriminate|].
      apply Forall_cons in Htxt as [Htk _]. cbn in Htk. subst tks.
      unfold bind.
      destruct (postParse_tokens evalfns _ _ _) as [[res|] h3] eqn:Eloop;
        [|discriminate].
      intros [= <- <-].
      apply postParse_tokens_fresh in Eloop as [-> (d & Ed & ->)];
        [|exact Hfresh].
      cbn [items] in Ed.
      exists (MkCompValue (next_oid h) (Comp.name self) d).
      unfold built, is_ServiceGraphPattern in *.
      destruct (Comp.evalfn self); [discriminate|].
      split; [reflexivity|]. split; [|exact Hlen]. cbn [items].
      destruct (String.eqb_spec "service_string" n) as [<-|Hn].
      * exfalso.
        rewrite (tokens_items_no_append "service_string" tokenList _
                   (VStr (slice (expandtabs instring) start stop))) in Ed;
          [discriminate | exact Hf | now apply values_of_uses
          | reflexivity | reflexivity].
      * rewrite (tokens_items_list n tokenList _ d [] Hf Ed).
        -- destruct (values_of n tokenList); [contradiction | reflexivity].
        -- right. split; [|reflexivity]. cbn [OrderedDict.get].
           now rewrite (proj2 (String.eqb_neq _ _) Hn).
    + unfold bind.
      destruct (postParse_tokens evalfns _ _ _) as [[res|] h3] eqn:Eloop;
        [|discriminate].
      intros [= <- <-].
      apply postParse_tokens_fresh in Eloop as [-> (d & Ed & ->)];
        [|apply alloc_run].
      cbn [items] in Ed.
      exists (MkCompValue (next_oid h) (Comp.name self) d).
      split; [reflexivity|]. split; [|exact Hlen]. cbn [items].
      rewrite (tokens_items_list n tokenList _ d [] Hf Ed).
      * destruct (values_of n tokenList); [contradiction | reflexivity].
      * right. split; reflexivity.
  - intros raws. induction raws as [|raw raws IH]; [reflexivity|].
    cbn. rewrite String.eqb_refl. now rewrite IH.
  - intros Hsgp Hc Hct Hcf. rewrite postParse_run, Hsgp.
    destruct (tokens_items_total tokenList [] eq_refl Hct Hcf) as [d Ed].
    + intros m. now apply consistent_spec.
    + intros m _. now left.
    + exists (built self (MkCompValue (next_oid h) (Comp.name self) d)).
      unfold bind.
      assert (postParse_tokens evalfns
                (MkCompValue (next_oid h) (Comp.name self) []) tokenList
                (snd (alloc h))
              = (Ok (MkCompValue (next_oid h) (Comp.name self) d),
                 snd (alloc h))) as ->.
      { apply postParse_tokens_fresh; [apply alloc_run|]. eauto. }
      reflexivity.
  - intros Hv Hn v h'. rewrite postParse_run.
    destruct (values_of_nil _ _ Hv) as [Ht _].
    destruct (is_ServiceGraphPattern self) eqn:Hsgp.
    + destruct (scanString _ _ _ _ _) as [[ms|e] h2]; [|discriminate].
      destruct ms as [|[[[|tk tks] start] stop] more]; try discriminate.
      unfold bind.
      destruct (postParse_tokens evalfns _ _ _) as [[res|] h3] eqn:Eloop;
        [|discriminate].
      intros [= <- <-]. exists res.
      unfold built, is_ServiceGraphPattern in *.
      destruct (Comp.evalfn self); [discriminate|].
      split; [reflexivity|].
      rewrite (postParse_tokens_other _ _ _ _ _ _ Eloop Ht Hf).
      cbn [items OrderedDict.get].
      destruct (String.eqb_spec "service_string" n) as [<-|_];
        [now contradiction Hn | reflexivity].
    + unfold bind.
      destruct (postParse_tokens evalfns _ _ _) as [[res|] h3] eqn:Eloop;
        [|discriminate].
      intros [= <- <-]. exists res. split; [reflexivity|].
      now rewrite (postParse_tokens_other _ _ _ _ _ _ Eloop Ht Hf).
Qed.

(** C7, as amended.  Let no token be labelled ["service_string"].  A
    Service Graph Pattern without evaluation function: the pattern of the
    production is searched in the whole input from its start, and the node
    stores under ["service_string"] the text of the first match found;
    with plain [Param] tokens the node is built and has that key besides
    the names of the tokens.  Any other production, a Service Graph
    Pattern with an evaluation function among them: the node has no such
    key. *)
Theorem postParse_service_string (self : Comp.t) (instring : string)
        (loc : nat) (tokenList : list Val) (h : Heap) :
  uses true "service_string" tokenList = false ->
  uses false "service_string" tokenList = false ->
  (is_ServiceGraphPattern self = true ->
   forall tks start stop more h2,
     scanString (sgp DEFAULT_WHITE_CHARS self) (expandtabs instring) 0
                (S (String.length (expandtabs instring)))
                (snd (alloc h)) = (Ok ((tks, start, stop) :: more), h2) ->
     (forall v h',
         postParse evalfns DEFAULT_WHITE_CHARS self instring loc tokenList h = (Ok v, h') ->
         exists c, v = VCompValue c
                   /\ OrderedDict.get "service_string" (items c)
                      = Some (VStr (slice (expandtabs instring) start stop)))
     /\ (scalar_only tokenList = true ->
         exists c,
           postParse evalfns DEFAULT_WHITE_CHARS self instring loc tokenList h = (Ok (VCompValue c), h2)
           /\ OrderedDict.get "service_string" (items c)
              = Some (VStr (slice (expandtabs instring) start stop))
           /\ (forall a, a ∈ OrderedDict.keys (items c)
                         <-> a = "service_string" \/ a ∈ labels tokenList)))
  /\ (is_ServiceGraphPattern self = false ->
      forall v h',
        postParse evalfns DEFAULT_WHITE_CHARS self instring loc tokenList h = (Ok v, h') ->
        exists c, v = built self c
                  /\ OrderedDict.get "service_string" (items c) = None).
Proof.
  intros Ht Hf. split.
  - intros Hsgp tks start stop more h2 Escan.
    pose proof (scanString_originalTextFor _ _ _ _ _ _ _ _ Escan) as Htxt.
    apply Forall_cons in Htxt as [Htk _]. cbn in Htk. subst tks.
    rewrite postParse_run, Hsgp, Escan. unfold bind. split.
    + intros v h'.
      destruct (postParse_tokens evalfns _ _ _) as [[res|] h3] eqn:Eloop;
        [|discriminate].
      intros [= <- <-]. exists res. split; [reflexivity|].
      now rewrite (postParse_tokens_other _ _ _ _ _ _ Eloop Ht Hf).
    + intros Hs.
      destruct (tokens_items_scalar tokenList
                  [("service_string", VStr (slice (expandtabs instring) start stop))] Hs)
        as (d & Ed & Gd & Nd).
      rewrite (postParse_tokens_scalar
                 _ (MkCompValue (next_oid h) (Comp.name self)
                      [("service_string",
                        VStr (slice (expandtabs instring) start stop))]) _ d Hs Ed).
      eexists. split; [reflexivity|]. cbn [items].
      assert (last_value "service_string" tokenList = None) as Hl.
      { apply eq_None_not_Some. rewrite last_value_labels.
        unfold labels. rewrite list_elem_of_omap.
        intros (t & Hin & [Hl|Hl]%label_labelled_by).
        - assert (uses true "service_string" tokenList = true); [|congruence].
          apply existsb_exists. exists t. now rewrite <- list_elem_of_In.
        - assert (uses false "service_string" tokenList = true); [|congruence].
          apply existsb_exists. exists t. now rewrite <- list_elem_of_In. }
      split.
      * now rewrite Gd, Hl.
      * intros a. rewrite <- get_Some_keys, Gd, <- last_value_labels.
        cbn [OrderedDict.get].
        destruct (last_value a tokenList) as [v|].
        -- split; [right; eauto | eauto].
        -- destruct (String.eqb_spec "service_string" a) as [<-|Hn].
           ++ split; [now left | eauto].
           ++ split; [intros [? [=]] | intros [->|[? [=]]]; contradiction].
  - intros Hsgp v h'. rewrite postParse_run, Hsgp. unfold bind.
    destruct (postParse_tokens evalfns _ _ _) as [[res|] h3] eqn:Eloop;
      [|discriminate].
    intros [= <- <-]. exists res. split; [reflexivity|].
    now rewrite (postParse_tokens_other _ _ _ _ _ _ Eloop Ht Hf).
Qed.

End PostParseProperties.

(** ** Strings and whitespace *)

Module StringFacts.

Lemma get_None s : forall n, String.get n s = None <-> String.length s <= n.
Proof.
  induction s as [|c s IH]; intros n; cbn.
  - split; [lia | reflexivity].
  - destruct n as [|n]; [split; [discriminate | lia]|].
    rewrite IH. lia.
Qed.

Lemma get_Some_lt s n c : String.get n s = Some c -> n < String.length s.
Proof.
  intros H. destruct (le_lt_dec (String.length s) n) as [Hle|]; [|assumption].
  apply get_None in Hle. congruence.
Qed.

Lemma substring_one s : forall n c,
  String.get n s = Some c -> substring n 1 s = String c EmptyString.
Proof.
  induction s as [|a s IH]; intros n c; [discriminate|].
  destruct n as [|n]; cbn.
  - intros [= ->]. now destruct s.
  - apply IH.
Qed.

Lemma substring_end s : forall n m,
  String.length s <= n -> substring n m s = EmptyString.
Proof.
  induction s as [|a s IH]; intros n m H.
  - destruct n, m; reflexivity.
  - destruct n as [|n]; cbn in *; [lia|]. apply IH. lia.
Qed.

(** [skip] stops at the first character outside the set, or at the end. *)
Lemma skip_id wt s loc fuel :
  match String.get loc s with
  | Some c => char_in c wt = false
  | None => True
  end -> skip wt s loc fuel = loc.
Proof.
  destruct fuel; [reflexivity|]. cbn.
  destruct (String.get loc s); [intros -> | ]; reflexivity.
Qed.

Lemma skip_ge wt s fuel : forall loc, loc <= skip wt s loc fuel.
Proof.
  induction fuel as [|fuel IH]; intros loc; cbn; [lia|].
  destruct (String.get loc s) as [c|]; [|lia].
  destruct (char_in c wt); [|lia]. specialize (IH (S loc)). lia.
Qed.

Lemma skip_stop wt s fuel : forall loc,
  String.length s - loc <= fuel ->
  match String.get (skip wt s loc fuel) s with
  | Some c => char_in c wt = false
  | None => True
  end.
Proof.
  induction fuel as [|fuel IH]; intros loc Hf; cbn.
  - assert (String.get loc s = None) as -> by (apply get_None; lia). exact I.
  - destruct (String.get loc s) as [c|] eqn:E; [|now rewrite E].
    destruct (char_in c wt) eqn:Ec; [|now rewrite E].
    apply IH. lia.
Qed.

Lemma skip_le wt s fuel : forall loc,
  loc <= String.length s -> skip wt s loc fuel <= String.length s.
Proof.
  induction fuel as [|fuel IH]; intros loc Hl; cbn; [lia|].
  destruct (String.get loc s) as [c|] eqn:E; [|lia].
  destruct (char_in c wt); [|lia].
  apply IH. apply get_Some_lt in E. lia.
Qed.

End StringFacts.

(** ** The tab separated reader *)

Section TSVProperties.

Variable evalfns : FnId -> Expr -> Ctx -> M Val.
Variable DEFAULT_WHITE_CHARS : string.
Variables STRING_LITERAL1 STRING_LITERAL2 LANGTAG IRIREF BLANK_NODE_LABEL
          NumericLiteral BooleanLiteral Var : ParserElement.

Import StringFacts.

Local Abbreviation term :=
  (TERM evalfns DEFAULT_WHITE_CHARS STRING_LITERAL1 STRING_LITERAL2 LANGTAG
        IRIREF BLANK_NODE_LABEL NumericLiteral BooleanLiteral).
Local Abbreviation field :=
  (FIELD evalfns DEFAULT_WHITE_CHARS STRING_LITERAL1 STRING_LITERAL2 LANGTAG
         IRIREF BLANK_NODE_LABEL NumericLiteral BooleanLiteral).
Local Abbreviation row :=
  (ROW evalfns DEFAULT_WHITE_CHARS STRING_LITERAL1 STRING_LITERAL2 LANGTAG
       IRIREF BLANK_NODE_LABEL NumericLiteral BooleanLiteral).
Local Abbreviation field_at_ :=
  (field_at evalfns DEFAULT_WHITE_CHARS STRING_LITERAL1 STRING_LITERAL2 LANGTAG
            IRIREF BLANK_NODE_LABEL NumericLiteral BooleanLiteral).
Local Abbreviation fields_from_ :=
  (fields_from evalfns DEFAULT_WHITE_CHARS STRING_LITERAL1 STRING_LITERAL2
               LANGTAG IRIREF BLANK_NODE_LABEL NumericLiteral BooleanLiteral).
Local Abbreviation row_layout_ :=
  (row_layout evalfns DEFAULT_WHITE_CHARS STRING_LITERAL1 STRING_LITERAL2
              LANGTAG IRIREF BLANK_NODE_LABEL NumericLiteral BooleanLiteral).

(** Where the whitespace of this file has been skipped, no element of the
    file skips further. *)
Lemma skip_white_stop line loc :
  match String.get (skip_white line loc) line with
  | Some c => char_in c TSV_WHITE = false
  | None => True
  end.
Proof. apply skip_stop. lia. Qed.

Lemma skip_again wt line loc :
  (forall c, char_in c wt = true -> char_in c TSV_WHITE = true) ->
  skip wt line (skip_white line loc)
       (String.length line - skip_white line loc) = skip_white line loc.
Proof.
  intros Hsub. apply skip_id. pose proof (skip_white_stop line loc) as H.
  destruct (String.get _ line) as [c|]; [|exact I].
  destruct (char_in c wt) eqn:E; [|reflexivity].
  apply Hsub in E. congruence.
Qed.

Lemma skip_white_idem line loc :
  skip_white line (skip_white line loc) = skip_white line loc.
Proof. apply skip_again. auto. Qed.

Lemma white_without_newline c :
  char_in c (without_newline TSV_WHITE) = true -> char_in c TSV_WHITE = true.
Proof.
  unfold TSV_WHITE, char_in. cbn. rewrite !orb_false_r. intros ->. reflexivity.
Qed.

Lemma startswith_tab line p :
  startswith line TAB p
  = match String.get p line with
    | Some c => Ascii.eqb c tab
    | None => false
    end.
Proof.
  unfold startswith, TAB. cbn [String.length].
  destruct (String.get p line) as [c|] eqn:E.
  - rewrite (substring_one _ _ _ E).
    apply get_Some_lt in E.
    replace (Nat.leb p (String.length line)) with true
      by (symmetry; apply Nat.leb_le; lia).
    cbn [String.eqb andb]. apply andb_true_r.
  - apply get_None in E. rewrite (substring_end _ _ _ E). apply andb_false_r.
Qed.

(** An element whose whitespace set is within that of this file. *)
Definition white_sub (e : ParserElement) : Prop :=
  forall c, char_in c (whiteChars e) = true -> char_in c TSV_WHITE = true.

Lemma parse_settled e line loc :
  white_sub e ->
  _parse e line (skip_white line loc) = parseImpl e line (skip_white line loc).
Proof.
  intros He. unfold _parse, preParse.
  destruct (skipWhitespace e); [|reflexivity].
  now rewrite (skip_again _ line loc He).
Qed.

Lemma white_sub_same e : whiteChars e = TSV_WHITE -> white_sub e.
Proof. intros E c. now rewrite E. Qed.

Lemma white_sub_LineEnd : white_sub (LineEnd TSV_WHITE).
Proof. exact white_without_newline. Qed.

Lemma LineEnd_run line p h :
  parseImpl (LineEnd TSV_WHITE) line p h =
    if decide (p = String.length line) then (Ok (p + 1, []), h)
    else match String.get p line with
         | Some c =>
             if Ascii.eqb c newline
             then (Ok (p + 1, [VStr (String newline EmptyString)]), h)
             else (Raise (ExParseException p), h)
         | None => (Raise (ExParseException p), h)
         end.
Proof.
  cbn [parseImpl LineEnd].
  destruct (decide (p = String.length line)) as [->|Hp].
  - now rewrite Nat.ltb_irrefl, Nat.eqb_refl.
  - destruct (String.get p line) as [c|] eqn:E.
    + pose proof (get_Some_lt _ _ _ E) as Hlt. apply Nat.ltb_lt in Hlt.
      rewrite Hlt. now destruct (Ascii.eqb c newline).
    + apply get_None in E.
      assert (Nat.ltb p (String.length line) = false) as ->
        by (apply Nat.ltb_ge; lia).
      assert (Nat.eqb p (String.length line) = false) as ->
        by (now apply Nat.eqb_neq).
      reflexivity.
Qed.

Lemma Literal_tab_run line p h :
  parseImpl (Literal TSV_WHITE TAB) line p h =
    match String.get p line with
    | Some c => if Ascii.eqb c tab then (Ok (p + 1, [VStr TAB]), h)
                else (Raise (ExParseException p), h)
    | None => (Raise (ExParseException p), h)
    end.
Proof.
  cbn [parseImpl Literal]. rewrite startswith_tab.
  destruct (String.get p line) as [c|]; [|reflexivity].
  now destruct (Ascii.eqb c tab).
Qed.

(** [EMPTY] where the whitespace has been skipped. *)
Lemma EMPTY_run line loc h :
  parseImpl EMPTY line (skip_white line loc) h =
    if decide (skip_white line loc = String.length line)
    then (Ok (skip_white line loc, [VNONE_VALUE]), h)
    else match String.get (skip_white line loc) line with
         | Some c =>
             if Ascii.eqb c tab
             then (Ok (skip_white line loc, [VNONE_VALUE]), h)
             else (Raise (ExParseException (skip_white line loc)), h)
         | None => (Raise (ExParseException (skip_white line loc)), h)
         end.
Proof.
  pose proof (skip_white_stop line loc) as Hstop.
  unfold EMPTY. cbn [parseImpl setParseAction MatchFirst MatchFirst_alternatives].
  unfold bind at 1 2.
  rewrite (parse_settled (FollowedBy (LineEnd TSV_WHITE)))
    by exact white_sub_LineEnd.
  rewrite (parse_settled (FollowedBy (Literal TSV_WHITE TAB)))
    by (now apply white_sub_same).
  cbn [parseImpl FollowedBy].
  rewrite (parse_settled (LineEnd TSV_WHITE)) by exact white_sub_LineEnd.
  rewrite (parse_settled (Literal TSV_WHITE TAB)) by (now apply white_sub_same).
  unfold try_match, bind. rewrite LineEnd_run.
  destruct (decide (skip_white line loc = String.length line)) as [Hend|Hend].
  { reflexivity. }
  destruct (String.get (skip_white line loc) line) as [c|] eqn:E.
  - assert (Ascii.eqb c newline = false) as ->.
    { destruct (Ascii.eqb_spec c newline) as [->|]; [|reflexivity].
      discriminate Hstop. }
    rewrite Literal_tab_run, E. now destruct (Ascii.eqb c tab).
  - now rewrite Literal_tab_run, E.
Qed.

Lemma field_at_parse line loc h c stop h' :
  field_at_ line loc h c stop h' ->
  _parse field line loc h = (Ok (stop, [token_of c]), h').
Proof.
  unfold field_at. intros Hc.
  change (_parse field line loc)
    with (MatchFirst_alternatives [EMPTY; term] line (skip_white line loc)).
  cbn [MatchFirst_alternatives]. unfold bind at 1.
  rewrite (parse_settled EMPTY) by (now apply white_sub_same).
  unfold try_match at 1. rewrite EMPTY_run.
  destruct c as [tok|].
  - destruct Hc as (Hno & _ & Hterm).
    destruct (decide (skip_white line loc = String.length line)) as [Hend|_].
    { contradiction Hno. now left. }
    assert (try_match (_parse term line (skip_white line loc)) h
            = (Ok (Some (stop, [tok])), h')) as Ht.
    { unfold try_match. now rewrite Hterm. }
    destruct (String.get (skip_white line loc) line) as [c|] eqn:E.
    + destruct (Ascii.eqb_spec c tab) as [->|_].
      { contradiction Hno. now right. }
      unfold bind. now rewrite Ht.
    + unfold bind. now rewrite Ht.
  - destruct Hc as ([Hend|Htab] & -> & ->).
    + now rewrite decide_True.
    + destruct (decide _); [reflexivity|]. rewrite Htab.
      now change (Ascii.eqb tab tab) with true.
Qed.

Local Abbreviation next_field :=
  (And (Suppress (Literal TSV_WHITE TAB)) [field]).

(** One more field: a tab where the whitespace ends, and the field
    behind it. *)
Lemma next_field_run line loc h :
  _parse next_field line loc h =
    match String.get (skip_white line loc) line with
    | Some c =>
        if Ascii.eqb c tab then
          match _parse field line (S (skip_white line loc)) h with
          | (Ok r, h') => (Ok (fst r, snd r), h')
          | (Raise e, h') => (Raise e, h')
          end
        else (Raise (ExParseException (skip_white line loc)), h)
    | None => (Raise (ExParseException (skip_white line loc)), h)
    end.
Proof.
  change (_parse next_field line loc)
    with (parseImpl next_field line (skip_white line loc)).
  cbn [parseImpl And Suppress TokenConverter And_rest]. unfold bind at 1 2.
  rewrite Literal_tab_run.
  destruct (String.get (skip_white line loc) line) as [c|]; [|reflexivity].
  destruct (Ascii.eqb c tab); [|reflexivity].
  unfold bind, ret. cbn [fst snd app]. rewrite Nat.add_1_r.
  destruct (_parse field line (S (skip_white line loc)) h) as [[r|e] h'];
    reflexivity.
Qed.

Lemma fields_from_length line cs : forall loc h stop h',
  fields_from_ line loc h cs stop h' ->
  loc + length cs <= Nat.max loc (String.length line).
Proof.
  induction cs as [|c cs IH]; intros loc h stop h'; cbn [fields_from length].
  - lia.
  - intros (Htab & loc1 & h1 & Hc & Hcs).
    apply get_Some_lt in Htab.
    pose proof (skip_ge TSV_WHITE line (String.length line - loc) loc) as Hq.
    fold (skip_white line loc) in Hq.
    assert (S (skip_white line loc) <= loc1) as H1.
    { pose proof (skip_ge TSV_WHITE line
                    (String.length line - S (skip_white line loc))
                    (S (skip_white line loc))) as Hp.
      fold (skip_white line (S (skip_white line loc))) in Hp.
      unfold field_at in Hc. destruct c as [tok|].
      - destruct Hc as (_ & Hle & _). lia.
      - destruct Hc as (_ & -> & _). lia. }
    specialize (IH _ _ _ _ Hcs). lia.
Qed.

(** The loop of [ZeroOrMore] reads the remaining fields, with turns to
    spare. *)
Lemma ZeroOrMore_loop_fields line cs : forall fuel loc h stop h' acc,
  fields_from_ line loc h cs stop h' ->
  skip_white line stop = String.length line ->
  length cs <= fuel ->
  ZeroOrMore_loop next_field line fuel loc acc h
  = (Ok (stop, acc ++ map token_of cs), h').
Proof.
  induction cs as [|c cs IH]; intros fuel loc h stop h' acc;
    cbn [fields_from length map].
  - intros (-> & ->) Hend _. rewrite app_nil_r.
    destruct fuel as [|fuel]; [reflexivity|].
    cbn [ZeroOrMore_loop]. unfold bind, try_match.
    rewrite next_field_run, Hend.
    assert (String.get (String.length line) line = None) as ->
      by (now apply get_None).
    reflexivity.
  - intros (Htab & loc1 & h1 & Hc & Hcs) Hend Hfuel.
    destruct fuel as [|fuel]; [lia|].
    cbn [ZeroOrMore_loop]. unfold bind, try_match.
    rewrite next_field_run, Htab.
    change (Ascii.eqb tab tab) with true. cbv iota.
    rewrite (field_at_parse _ _ _ _ _ _ Hc). cbn [fst snd].
    rewrite (IH fuel loc1 h1 stop h' (acc ++ [token_of c]) Hcs Hend)
      by lia.
    now rewrite <- app_assoc.
Qed.

Lemma skip_white_end line : skip_white line (String.length line) = String.length line.
Proof. apply skip_id. now rewrite (proj2 (get_None _ _)). Qed.

Lemma string_end_parse line h :
  _parse (And (Empty TSV_WHITE) [StringEnd TSV_WHITE]) line (String.length line) h
  = (Ok (String.length line + 1, []), h).
Proof.
  assert (forall e, whiteChars e = TSV_WHITE ->
            _parse e line (String.length line)
            = parseImpl e line (String.length line)) as Hp.
  { intros e He. rewrite <- skip_white_end at 1 2.
    now apply parse_settled, white_sub_same. }
  rewrite Hp by reflexivity. cbn [parseImpl And Empty And_rest].
  unfold bind, ret. cbn [fst snd]. rewrite Hp by reflexivity.
  cbn [parseImpl StringEnd]. now rewrite Nat.ltb_irrefl, Nat.eqb_refl.
Qed.

(** [ROW] on a line laid out in fields yields one token for each field,
    in their order, the marker for the empty ones. *)
Lemma ROW_parse line h c cs h' :
  row_layout_ line h c cs h' ->
  parseString TSV_WHITE true row line true h = (Ok (map token_of (c :: cs)), h').
Proof.
  intros (loc1 & h1 & stop & Hc & Hcs & Hend).
  pose proof (fields_from_length _ _ _ _ _ _ Hcs) as Hlen.
  unfold parseString. unfold bind at 1.
  change (_parse row line 0)
    with (r <- _parse field line 0 ;;
          And_rest [ZeroOrMore next_field] line (fst r) (snd r)).
  unfold bind at 1. rewrite (field_at_parse _ _ _ _ _ _ Hc). cbn [fst snd].
  cbn [And_rest]. unfold bind at 1.
  change (_parse (ZeroOrMore next_field) line loc1)
    with (r <- try_match (_parse next_field line loc1) ;;
          match r with
          | Some r =>
              ZeroOrMore_loop next_field line (String.length line)
                              (fst r) (snd r)
          | None => ret (skip_white line loc1, [])
          end).
  unfold bind at 1, try_match at 1. rewrite next_field_run.
  change (preParse row line) with (skip_white line).
  destruct cs as [|c2 cs]; cbn [fields_from] in Hcs.
  - destruct Hcs as (-> & ->). rewrite Hend.
    assert (String.get (String.length line) line = None) as ->
      by (now apply get_None).
    unfold ret at 1. cbv iota beta. cbn [fst snd]. unfold ret at 1.
    cbv iota beta. cbn [fst snd]. rewrite skip_white_end.
    unfold bind. now rewrite string_end_parse.
  - destruct Hcs as (Htab & loc2 & h2 & Hc2 & Hcs). rewrite Htab.
    change (Ascii.eqb tab tab) with true. cbv iota.
    rewrite (field_at_parse _ _ _ _ _ _ Hc2). cbn [fst snd].
    pose proof (get_Some_lt _ _ _ Htab) as Hlt.
    cbn [length] in Hlen.
    rewrite (ZeroOrMore_loop_fields line cs _ loc2 h2 stop h' _ Hcs Hend).
    2:{ pose proof (fields_from_length _ _ _ _ _ _ Hcs). 
        pose proof (skip_ge TSV_WHITE line (String.length line - loc1) loc1)
          as Hq. fold (skip_white line loc1) in Hq. lia. }
    cbn [fst snd]. unfold ret at 1. cbv iota beta. cbn [fst snd]. rewrite Hend.
    unfold bind. now rewrite string_end_parse.
Qed.

(** Attribute access on a node whose [ctx] reads as [None]: the stored
    value as it is, [None] for a name that is no key. *)
Lemma getattr_no_ctx c a h :
  read_ctx c h = (Ok None, h) ->
  a <> "_OrderedDict__root" -> a <> "_OrderedDict__end" ->
  __getattr__ evalfns c a h
  = (Ok (default VNone (OrderedDict.get a (items c))), h).
Proof.
  intros Hc H1 H2. unfold __getattr__.
  rewrite (proj2 (String.eqb_neq _ _) H1), (proj2 (String.eqb_neq _ _) H2).
  cbn [orb]. unfold try_except_KeyError. rewrite getitem_run, Hc.
  now destruct (OrderedDict.get a (items c)).
Qed.

Lemma convertTerm_literal c h :
  name c = "literal" ->
  read_ctx c h = (Ok None, h) ->
  convertTerm evalfns (VCompValue c) h
  = (Ok (RDFLiteral (default VNone (OrderedDict.get "string" (items c)))
                    (default VNone (OrderedDict.get "lang" (items c)))
                    (default VNone (OrderedDict.get "datatype" (items c)))),
     h).
Proof.
  intros Hn Hc. cbn [convertTerm]. rewrite Hn, String.eqb_refl.
  unfold bind at 1. rewrite (getattr_no_ctx _ "string" _ Hc) by discriminate.
  unfold bind at 1. rewrite (getattr_no_ctx _ "lang" _ Hc) by discriminate.
  unfold bind at 1. rewrite (getattr_no_ctx _ "datatype" _ Hc) by discriminate.
  reflexivity.
Qed.

Lemma mapM_lookup {A B} (f : A -> M B) l : forall h ys h',
  mapM f l h = (Ok ys, h') ->
  forall i x, l !! i = Some x ->
              exists y hi hi', ys !! i = Some y /\ f x hi = (Ok y, hi').
Proof.
  induction l as [|a l IH]; intros h ys h' H i x Hi; [discriminate|].
  cbn [mapM] in H. unfold bind in H.
  destruct (f a h) as [[y|] h1] eqn:Ea; [|discriminate].
  fold (mapM f) in H.
  destruct (mapM f l h1) as [[ys'|] h2] eqn:El; [|discriminate].
  injection H as <- <-.
  destruct i as [|i]; cbn in Hi |- *.
  - injection Hi as <-. eauto.
  - eapply IH; eauto.
Qed.


End TSVProperties.

(** * Further properties of the code *)

(** ** Evaluation and the reads of a node *)

Section EvaluationOutcomes.

Variable evalfns : FnId -> Expr -> Ctx -> M Val.

(** [self.ctx] right after [eval]. *)
Lemma read_ctx_after_eval self ctx h :
  read_ctx (base self) (snd (eval evalfns self ctx h))
  = (Ok None, snd (eval evalfns self ctx h)).
Proof.
  unfold read_ctx. rewrite eval_run. cbn [snd]. now rewrite with_ctx_lookup.
Qed.

(** [self.ctx] while the context is attached. *)
Lemma read_ctx_attached self ctx h :
  read_ctx self (with_ctx self (Some ctx) h)
  = (Ok (Some ctx), with_ctx self (Some ctx) h).
Proof. unfold read_ctx. now rewrite with_ctx_lookup. Qed.

(** X1. [eval] never raises an evaluation-domain error, whatever the
    evaluation function does; nor does [value] on an evaluable node,
    whatever the flags. *)
Theorem eval_never_raises_SPARQLError (self : Expr) (ctx : Ctx) (h : Heap)
        (e : SPARQLError) :
  fst (eval evalfns self ctx h) <> Raise (ExSPARQL e)
  /\ (forall variables errors,
        fst (value evalfns ctx (VExpr self) variables errors h)
        <> Raise (ExSPARQL e)).
Proof.
  assert (E : fst (eval evalfns self ctx h) <> Raise (ExSPARQL e)).
  { rewrite eval_run. cbn [fst].
    destruct (fst (call_evalfn _ _ _ _)) as [v|[]]; discriminate. }
  split; [exact E | intros; exact E].
Qed.

(** X2. A node without evaluation function: [eval] raises the [TypeError]
    of calling [None], which is no evaluation-domain error and is not
    caught; the context is attached and detached all the same. *)
Theorem eval_without_function (self : Expr) (ctx : Ctx) (h : Heap) :
  _evalfn self = None ->
  eval evalfns self ctx h
  = (Raise ExTypeError,
     with_ctx (base self) None (with_ctx (base self) (Some ctx) h)).
Proof.
  intros Hf. rewrite eval_run. unfold call_evalfn. rewrite Hf. reflexivity.
Qed.

(** X3. Once [eval] is over, however it ended, the node gives its stored
    values as they are: item access gives the stored value or [KeyError],
    and [get] the stored value or the key, also for a node that holds a
    key ["ctx"]. *)
Theorem eval_then_reads_raw (self : Expr) (ctx : Ctx) (h : Heap) (a : string)
        (variables errors : bool) :
  __getitem__ evalfns (base self) a (snd (eval evalfns self ctx h))
  = (match OrderedDict.get a (items (base self)) with
     | Some raw => Ok raw
     | None => Raise (ExKeyError a)
     end, snd (eval evalfns self ctx h))
  /\ get evalfns (base self) a variables errors (snd (eval evalfns self ctx h))
     = (Ok (default (VStr a) (OrderedDict.get a (items (base self)))),
        snd (eval evalfns self ctx h)).
Proof.
  split.
  - rewrite getitem_run, read_ctx_after_eval.
    now destruct (OrderedDict.get a (items (base self))).
  - now rewrite get_run, read_ctx_after_eval.
Qed.


(** X5. While a context is attached, item access of a key that holds an
    evaluable node evaluates that node in the same context, and item
    access of a key that holds a node that is not evaluable raises
    [Exception]. *)
Theorem attached_read_of_nested_node (self : CompValue) (a : string)
        (ctx : Ctx) (h : Heap) :
  read_ctx self h = (Ok (Some ctx), h) ->
  (forall e, OrderedDict.get a (items self) = Some (VExpr e) ->
             __getitem__ evalfns self a h = eval evalfns e ctx h)
  /\ (forall c, OrderedDict.get a (items self) = Some (VCompValue c) ->
                __getitem__ evalfns self a h
                = (Raise (ExException "What do I do with this CompValue?"), h)).
Proof.
  intros Hc. split; intros x Hx; now rewrite getitem_run, Hx, Hc.
Qed.

(** X21. [__getattr__] turns every [KeyError] into [None], not only that
    of a missing key: while a context is attached, attribute access of a
    key that holds an evaluable node whose evaluation raises [KeyError]
    gives [None], where item access of the same key raises the
    [KeyError]. *)
Theorem getattr_swallows_KeyError (self : CompValue) (a : string) (ctx : Ctx)
        (e : Expr) (k : string) (h h' : Heap) :
  a <> "_OrderedDict__root" -> a <> "_OrderedDict__end" ->
  read_ctx self h = (Ok (Some ctx), h) ->
  OrderedDict.get a (items self) = Some (VExpr e) ->
  eval evalfns e ctx h = (Raise (ExKeyError k), h') ->
  __getitem__ evalfns self a h = (Raise (ExKeyError k), h')
  /\ __getattr__ evalfns self a h = (Ok VNone, h').
Proof.
  intros H1 H2 Hc Ha He.
  assert (Hitem : __getitem__ evalfns self a h = (Raise (ExKeyError k), h')).
  { rewrite getitem_run, Ha, Hc. exact He. }
  split; [exact Hitem|]. unfold __getattr__.
  rewrite (proj2 (String.eqb_neq _ _) H1), (proj2 (String.eqb_neq _ _) H2).
  cbn [orb]. unfold try_except_KeyError. now rewrite Hitem.
Qed.

End EvaluationOutcomes.

(** ** Resolution of nested values *)

(** [val] is a list, a [plist] or a match sequence. *)
Definition is_sequence (val : Val) : bool :=
  match val with
  | VList _ | VPlist _ | VParseResults _ => true
  | _ => false
  end.

(** Induction on values, through the sequences. *)
Lemma Val_nested_ind (P : Val -> Prop) :
  (forall l, Forall P l -> P (VList l)) ->
  (forall l, Forall P l -> P (VPlist l)) ->
  (forall l, Forall P l -> P (VParseResults l)) ->
  (forall v, is_sequence v = false -> P v) ->
  forall v, P v.
Proof.
  intros HL HP HR HO. fix IH 1. intros v.
  destruct v; try (apply HO; reflexivity).
  - apply HL. induction l as [|x l IHl]; constructor; [apply IH | exact IHl].
  - apply HP. induction l as [|x l IHl]; constructor; [apply IH | exact IHl].
  - apply HR. induction l as [|x l IHl]; constructor; [apply IH | exact IHl].
Qed.

Lemma mapM_length {A B} (f : A -> M B) l : forall h ys h',
  mapM f l h = (Ok ys, h') -> length ys = length l.
Proof.
  induction l as [|a l IH]; intros h ys h' H.
  - injection H as <- _. reflexivity.
  - cbn [mapM] in H. unfold bind in H.
    destruct (f a h) as [[y|] h1]; [|discriminate].
    fold (mapM f) in H.
    destruct (mapM f l h1) as [[ys'|] h2] eqn:El; [|discriminate].
    injection H as <- _. cbn. f_equal. eapply IH, El.
Qed.

(** A comprehension over elements that all give a value and leave the
    heap alone. *)
Lemma mapM_pure {A B} (f : A -> M B) (g : A -> B) l h :
  Forall (fun x => f x h = (Ok (g x), h)) l ->
  mapM f l h = (Ok (map g l), h).
Proof.
  induction 1 as [|x l Hx _ IH]; [reflexivity|].
  cbn [mapM]. unfold bind. rewrite Hx. fold (mapM f). now rewrite IH.
Qed.

Lemma mapM_total {A B} (f : A -> M B) l :
  Forall (fun x => forall h, exists r, f x h = (Ok r, h)) l ->
  forall h, exists rs, mapM f l h = (Ok rs, h).
Proof.
  induction 1 as [|x l Hx _ IH]; intros h; [now exists []|].
  destruct (Hx h) as [r Hr]. destruct (IH h) as [rs Hrs].
  exists (r :: rs). cbn [mapM]. unfold bind. rewrite Hr.
  fold (mapM f). now rewrite Hrs.
Qed.

Lemma mapM_heap {A B} (f : A -> M B) l :
  Forall (fun x => forall h, snd (f x h) = h) l ->
  forall h, snd (mapM f l h) = h.
Proof.
  induction 1 as [|x l Hx _ IH]; intros h; [reflexivity|].
  cbn [mapM]. unfold bind. specialize (Hx h).
  destruct (f x h) as [[y|e] h1]; cbn in Hx; subst h1; [|reflexivity].
  fold (mapM f). specialize (IH h).
  destruct (mapM f l h) as [[ys|e] h2]; cbn in IH; subst h2; reflexivity.
Qed.

Section ValueStructure.

Variable evalfns : FnId -> Expr -> Ctx -> M Val.

Lemma value_list_run ctx l variables errors h :
  value evalfns ctx (VList l) variables errors h
  = (l' <- mapM (fun x => value evalfns ctx x variables errors) l ;;
     ret (VList l')) h.
Proof. reflexivity. Qed.

(** Resolution of a value without nodes leaves the heap as it is. *)
Lemma value_node_free_heap v :
  node_free v = true ->
  forall ctx variables errors h,
    snd (value evalfns ctx v variables errors h) = h.
Proof.
  induction v as [l IH|l IH|l IH|v Hv] using Val_nested_ind;
    intros Hn ctx variables errors h.
  - rewrite value_list_run. unfold bind.
    assert (H : snd (mapM (fun x => value evalfns ctx x variables errors) l h)
                = h).
    { apply mapM_heap. cbn [node_free] in Hn.
      rewrite forallb_forall in Hn. rewrite Forall_forall in IH |- *.
      intros x Hx h0. apply IH; [exact Hx|].
      apply Hn. now apply list_elem_of_In. }
    destruct (mapM _ l h) as [[ys|e] h1]; cbn in H; subst h1; reflexivity.
  - change (value evalfns ctx (VPlist l) variables errors h)
      with (value evalfns ctx (VList l) variables errors h).
    rewrite value_list_run. unfold bind.
    assert (H : snd (mapM (fun x => value evalfns ctx x variables errors) l h)
                = h).
    { apply mapM_heap. cbn [node_free] in Hn.
      rewrite forallb_forall in Hn. rewrite Forall_forall in IH |- *.
      intros x Hx h0. apply IH; [exact Hx|].
      apply Hn. now apply list_elem_of_In. }
    destruct (mapM _ l h) as [[ys|e] h1]; cbn in H; subst h1; reflexivity.
  - destruct l as [|x [|y l]]; try reflexivity.
    apply Forall_cons in IH as [IH _]. now apply IH.
  - destruct v; try discriminate; try reflexivity;
      cbn [value]; cbv zeta;
      destruct (isinstance_SPARQLError _ && negb errors);
      [destruct (ctx_get ctx _); reflexivity| |
       destruct (ctx_get ctx _); reflexivity| ];
      destruct (negb (is_None _)); try reflexivity;
      destruct variables; reflexivity.
Qed.

(** X6. [value] on a list or a [plist]: the result is a plain list of the
    same length, element by element the result of [value] on the element;
    the first element on which [value] raises makes the whole raise the
    same; and a [plist] is treated as the list of its elements. *)
Theorem value_on_lists (ctx : Ctx) (l : list Val) (variables errors : bool)
        (h : Heap) :
  value evalfns ctx (VPlist l) variables errors h
  = value evalfns ctx (VList l) variables errors h
  /\ (forall r h',
        value evalfns ctx (VList l) variables errors h = (Ok r, h') ->
        exists l', r = VList l' /\ length l' = length l
                   /\ forall i x, l !! i = Some x ->
                        exists y hi hi',
                          l' !! i = Some y
                          /\ value evalfns ctx x variables errors hi
                             = (Ok y, hi'))
  /\ (forall x rest e h',
        l = x :: rest ->
        value evalfns ctx x variables errors h = (Raise e, h') ->
        value evalfns ctx (VList l) variables errors h = (Raise e, h')).
Proof.
  split; [reflexivity|]. split.
  - intros r h'. rewrite value_list_run. unfold bind.
    destruct (mapM _ l h) as [[l'|e] h1] eqn:E; [|discriminate].
    intros [= <- <-]. exists l'. split; [reflexivity|].
    split; [eapply mapM_length, E|].
    intros i x Hi. eapply mapM_lookup in E as (y & hi & hi' & Hy & Hv); eauto.
  - intros x rest e h' -> Hx. rewrite value_list_run.
    cbn [mapM]. unfold bind. now rewrite Hx.
Qed.

(** X7. With both flags on, [value] never raises on a value without
    nodes: it returns a value and leaves the heap as it is, whatever the
    context binds. *)
Theorem value_permissive_total (ctx : Ctx) (v : Val) :
  node_free v = true ->
  forall h, exists r, value evalfns ctx v true true h = (Ok r, h).
Proof.
  induction v as [l IH|l IH|l IH|v Hv] using Val_nested_ind; intros Hn h.
  - rewrite value_list_run. unfold bind.
    destruct (mapM_total (fun x => value evalfns ctx x true true) l) with (h := h)
      as [rs Hrs].
    { cbn [node_free] in Hn. rewrite forallb_forall in Hn.
      rewrite Forall_forall in IH |- *.
      intros x Hx h0. apply IH; [exact Hx|]. apply Hn. now apply list_elem_of_In. }
    rewrite Hrs. now eexists.
  - change (value evalfns ctx (VPlist l) true true h)
      with (value evalfns ctx (VList l) true true h).
    rewrite value_list_run. unfold bind.
    destruct (mapM_total (fun x => value evalfns ctx x true true) l) with (h := h)
      as [rs Hrs].
    { cbn [node_free] in Hn. rewrite forallb_forall in Hn.
      rewrite Forall_forall in IH |- *.
      intros x Hx h0. apply IH; [exact Hx|]. apply Hn. now apply list_elem_of_In. }
    rewrite Hrs. now eexists.
  - destruct l as [|x [|y l]]; try (now eexists).
    apply Forall_cons in IH as [IH _]. now apply IH.
  - destruct v; try discriminate; try (now eexists);
      cbn [value]; cbv zeta; rewrite andb_false_r;
      destruct (negb (is_None _)); now eexists.
Qed.

(** X8. On a value in which [value] meets neither a node nor a variable or
    blank node, the result depends neither on the context nor on the
    flags, is never an exception, and the heap stays as it is. *)
Theorem value_of_ground (v : Val) :
  ground v = true ->
  exists r, forall ctx variables errors h,
      value evalfns ctx v variables errors h = (Ok r, h).
Proof.
  induction v as [l IH|l IH|l IH|v Hv] using Val_nested_ind; intros Hg.
  - assert (exists rs, forall ctx variables errors h,
                 mapM (fun x => value evalfns ctx x variables errors) l h
                 = (Ok rs, h)) as [rs Hrs].
    { cbn [ground] in Hg. induction l as [|x l IHl]; [now exists []|].
      cbn in Hg. apply andb_true_iff in Hg as [Hx Hl].
      apply Forall_cons in IH as [IHx IH].
      destruct (IHx Hx) as [r Hr]. destruct (IHl IH Hl) as [rs Hrs].
      exists (r :: rs). intros. cbn [mapM]. unfold bind. rewrite Hr.
      fold (mapM (fun x => value evalfns ctx x variables errors)).
      now rewrite Hrs. }
    exists (VList rs). intros. rewrite value_list_run. unfold bind.
    now rewrite Hrs.
  - assert (exists rs, forall ctx variables errors h,
                 mapM (fun x => value evalfns ctx x variables errors) l h
                 = (Ok rs, h)) as [rs Hrs].
    { cbn [ground] in Hg. induction l as [|x l IHl]; [now exists []|].
      cbn in Hg. apply andb_true_iff in Hg as [Hx Hl].
      apply Forall_cons in IH as [IHx IH].
      destruct (IHx Hx) as [r Hr]. destruct (IHl IH Hl) as [rs Hrs].
      exists (r :: rs). intros. cbn [mapM]. unfold bind. rewrite Hr.
      fold (mapM (fun x => value evalfns ctx x variables errors)).
      now rewrite Hrs. }
    exists (VList rs). intros.
    change (value evalfns ctx (VPlist l) variables errors h)
      with (value evalfns ctx (VList l) variables errors h).
    rewrite value_list_run. unfold bind. now rewrite Hrs.
  - destruct l as [|x [|y l]]; try (now eexists).
    apply Forall_cons in IH as [IH _]. now apply IH.
  - destruct v; try discriminate; now eexists.
Qed.

End ValueStructure.

(** ** Storing, reading back and cloning *)

Module OrderedDictOrder.
Import OrderedDict OrderedDictFacts.

(** A new key goes to the end. *)
Lemma setitem_new a v d : get a d = None -> setitem a v d = d ++ [(a, v)].
Proof.
  induction d as [|[k w] d IH]; cbn; [reflexivity|].
  destruct (String.eqb k a); [discriminate|]. intros H. now rewrite IH.
Qed.

(** A key that is there keeps its place. *)
Lemma keys_setitem_old a v d : is_Some (get a d) -> keys (setitem a v d) = keys d.
Proof.
  induction d as [|[k w] d IH]; cbn.
  - intros [? [=]].
  - destruct (String.eqb k a); [reflexivity|]. intros H. cbn. f_equal.
    exact (IH H).
Qed.

Lemma get_app_None a d d' : get a d = None -> get a (d ++ d') = get a d'.
Proof.
  induction d as [|[k w] d IH]; cbn; [reflexivity|].
  destruct (String.eqb k a); [discriminate | exact IH].
Qed.

(** Pairs with distinct keys, none of them in [d], are stored after [d]
    in their order. *)
Lemma update_new values : forall d,
  NoDup (keys values) ->
  (forall k, k ∈ keys values -> get k d = None) ->
  update values d = d ++ values.
Proof.
  induction values as [|[k v] values IH]; intros d Hnd Hd.
  - cbn. now rewrite app_nil_r.
  - cbn in Hnd. apply NoDup_cons in Hnd as [Hk Hnd].
    unfold update. cbn [fold_left fst snd]. fold (update values (setitem k v d)).
    rewrite setitem_new by (apply Hd; cbn; apply elem_of_cons; now left).
    rewrite IH; [now rewrite <- app_assoc | exact Hnd |].
    intros k' Hk'. rewrite get_app_None.
    + cbn. destruct (String.eqb_spec k k') as [->|_]; [contradiction | reflexivity].
    + apply Hd. cbn. apply elem_of_cons. now right.
Qed.

(** With distinct keys, a pair of the dictionary is what its key gives. *)
Lemma get_of_pair d : NoDup (keys d) ->
  Forall (fun kv => get (fst kv) d = Some (snd kv)) d.
Proof.
  induction d as [|[k v] d IH]; intros Hnd; constructor.
  - cbn. now rewrite String.eqb_refl.
  - cbn in Hnd. apply NoDup_cons in Hnd as [Hk Hnd].
    specialize (IH Hnd). rewrite Forall_forall in IH |- *.
    intros [k' v'] Hin. cbn.
    destruct (String.eqb_spec k k') as [->|_]; [|exact (IH (k', v') Hin)].
    exfalso. apply Hk. unfold keys. apply list_elem_of_fmap. now exists (k', v').
Qed.

End OrderedDictOrder.

Lemma bind_run {A B} (m : M A) (k : A -> M B) h :
  bind m k h = match m h with
               | (Ok a, h') => k a h'
               | (Raise e, h') => (Raise e, h')
               end.
Proof. reflexivity. Qed.

Section NodeAccess.

Variable evalfns : FnId -> Expr -> Ctx -> M Val.

Import OrderedDictFacts OrderedDictOrder.

(** X9. Storing and reading back on a node whose [self.ctx] reads as
    [None]: after [self[a] = v], item access and [get] of [a] give [v];
    item access of another key gives what it gave before; and the keys
    keep their order, a new key going to the end. *)
Theorem setitem_then_read (self : CompValue) (a : string) (v : Val)
        (variables errors : bool) (h : Heap) :
  read_ctx (setitem self a v) h = (Ok None, h) ->
  __getitem__ evalfns (setitem self a v) a h = (Ok v, h)
  /\ get evalfns (setitem self a v) a variables errors h = (Ok v, h)
  /\ (forall b, b <> a ->
        __getitem__ evalfns (setitem self a v) b h
        = (match OrderedDict.get b (items self) with
           | Some raw => Ok raw
           | None => Raise (ExKeyError b)
           end, h))
  /\ OrderedDict.keys (items (setitem self a v))
     = (if OrderedDict.contains a (items self)
        then OrderedDict.keys (items self)
        else OrderedDict.keys (items self) ++ [a]).
Proof.
  intros Hc. repeat split.
  - rewrite getitem_run, Hc. cbn [items setitem].
    now rewrite get_setitem_eq.
  - rewrite get_run, Hc. cbn [items setitem]. now rewrite get_setitem_eq.
  - intros b Hb. rewrite getitem_run, Hc. cbn [items setitem].
    rewrite get_setitem_ne by congruence.
    now destruct (OrderedDict.get b (items self)).
  - cbn [items setitem]. unfold OrderedDict.contains.
    destruct (OrderedDict.get a (items self)) as [w|] eqn:E.
    + apply keys_setitem_old. rewrite E. eauto.
    + rewrite setitem_new by exact E. unfold OrderedDict.keys.
      now rewrite map_app.
Qed.

(** The keyword arguments [**self] of a node whose [self.ctx] reads as
    [None]: the pairs of the node. *)
Lemma unpack_without_context self h d :
  read_ctx self h = (Ok None, h) ->
  Forall (fun kv => OrderedDict.get (fst kv) (items self) = Some (snd kv)) d ->
  mapM (fun k => v <- __getitem__ evalfns self k ;; ret (k, v))
       (OrderedDict.keys d) h
  = (Ok d, h).
Proof.
  intros Hc. induction 1 as [|[k v] d Hk _ IH]; [reflexivity|].
  cbn [fst snd] in Hk.
  cbn [OrderedDict.keys map fst mapM]. unfold bind at 1 2.
  rewrite getitem_run, Hk, Hc. cbn [ret].
  unfold OrderedDict.keys in IH. unfold bind at 1. now rewrite IH.
Qed.

(** The keyword arguments [**self] while a context is attached, for
    stored values without nodes: the pairs of the node, resolved. *)
Lemma unpack_with_context self ctx h d :
  read_ctx self h = (Ok (Some ctx), h) ->
  Forall (fun kv => OrderedDict.get (fst kv) (items self) = Some (snd kv)) d ->
  Forall (fun kv => node_free (snd kv) = true) d ->
  mapM (fun k => v <- __getitem__ evalfns self k ;; ret (k, v))
       (OrderedDict.keys d) h
  = mapM (fun kv => v <- value evalfns ctx (snd kv) false false ;;
                    ret (fst kv, v)) d h.
Proof.
  intros Hc. induction 1 as [|[k v] d Hk _ IH]; [reflexivity|].
  intros [Hv Hd]%Forall_cons. cbn [fst snd] in Hk, Hv.
  cbn [OrderedDict.keys map fst snd mapM]. rewrite !bind_run.
  rewrite getitem_run, Hk, Hc.
  pose proof (value_node_free_heap evalfns v Hv ctx false false h) as Hh.
  destruct (value evalfns ctx v false false h) as [[r|e] h1];
    cbn in Hh; subst h1; [|reflexivity].
  cbn [ret]. rewrite !bind_run.
  unfold OrderedDict.keys in IH. now rewrite (IH Hd).
Qed.

(** X10. [clone] of a node whose [self.ctx] reads as [None] and that has
    no key ["self"] or ["name"]: a new node of the same name with the same
    keys and values in the same order, and without the attribute [ctx]. *)
Theorem clone_without_context (self : CompValue) (h : Heap) :
  read_ctx self h = (Ok None, h) ->
  NoDup (OrderedDict.keys (items self)) ->
  OrderedDict.contains "self" (items self) = false ->
  OrderedDict.contains "name" (items self) = false ->
  clone evalfns self h
  = (Ok (MkCompValue (next_oid h) (name self) (items self)), snd (alloc h))
  /\ ctx_of (snd (alloc h)) !! next_oid h = None.
Proof.
  intros Hc Hnd Hs Hn. split; [|apply alloc_run].
  unfold clone. unfold bind at 1.
  rewrite (unpack_without_context _ _ _ Hc (get_of_pair _ Hnd)).
  unfold CompValue_new, bind. cbn [alloc]. rewrite Hs, Hn. cbn [orb].
  rewrite update_new; [reflexivity | exact Hnd | reflexivity].
Qed.

(** X11. [clone] of a node that has a key ["self"] or ["name"] raises
    [TypeError]: the key clashes with a parameter of the constructor. *)
Theorem clone_reserved_key (self : CompValue) (h : Heap) :
  read_ctx self h = (Ok None, h) ->
  NoDup (OrderedDict.keys (items self)) ->
  OrderedDict.contains "self" (items self) = true
  \/ OrderedDict.contains "name" (items self) = true ->
  clone evalfns self h = (Raise ExTypeError, snd (alloc h)).
Proof.
  intros Hc Hnd Hk. unfold clone. unfold bind at 1.
  rewrite (unpack_without_context _ _ _ Hc (get_of_pair _ Hnd)).
  unfold CompValue_new, bind. cbn [alloc].
  destruct Hk as [-> | ->]; [reflexivity | now rewrite orb_true_r].
Qed.

(** X12. [clone] while a context is attached, on a node whose stored
    values hold no nodes: the values of the clone are the stored values
    resolved against the context, key by key in order, and [clone] raises
    what the first failing resolution raises. *)
Theorem clone_with_context (self : CompValue) (ctx : Ctx) (h : Heap) :
  read_ctx self h = (Ok (Some ctx), h) ->
  NoDup (OrderedDict.keys (items self)) ->
  Forall (fun kv => node_free (snd kv) = true) (items self) ->
  clone evalfns self h
  = (values <- mapM (fun kv => v <- value evalfns ctx (snd kv) false false ;;
                               ret (fst kv, v)) (items self) ;;
     CompValue_new (name self) values) h.
Proof.
  intros Hc Hnd Hv. unfold clone. unfold bind at 1 3.
  now rewrite (unpack_with_context _ _ _ _ Hc (get_of_pair _ Hnd) Hv).
Qed.

End NodeAccess.

(** ** Mixed labels in a production *)

Section PostParseOrder.

Variable evalfns : FnId -> Expr -> Ctx -> M Val.
Variable DEFAULT_WHITE_CHARS : string.

Import OrderedDictFacts TokenFacts.

(** The loop over a sequence in two parts. *)
Lemma postParse_tokens_app l1 : forall l2 res h,
  postParse_tokens evalfns res (l1 ++ l2) h
  = (res' <- postParse_tokens evalfns res l1 ;;
     postParse_tokens evalfns res' l2) h.
Proof.
  induction l1 as [|t l1 IH]; intros l2 res h; [reflexivity|].
  cbn [app postParse_tokens]. rewrite !bind_run.
  destruct (postParse_token evalfns res t h) as [[r1|e] h1]; [|reflexivity].
  rewrite IH. now rewrite bind_run.
Qed.

(** X13. A production that is no Service Graph Pattern, with plain
    [Param] tokens up to a [ParamList] token for a name [n] that one of
    them has given a value without [append], neither a list nor a match
    sequence nor a node: [postParse] raises [AttributeError] at that token
    and builds no node. *)
Theorem postParse_list_after_scalar (self : Comp.t) (instring : string)
        (loc : nat) (pre post : list Val) (n : string) (cur w : Val)
        (h : Heap) :
  is_ServiceGraphPattern self = false ->
  scalar_only pre = true ->
  last_value n pre = Some cur ->
  last_value "ctx" pre = None ->
  isinstance_list cur = false ->
  isinstance_ParseResults cur = false ->
  isinstance_CompValue cur = false ->
  postParse evalfns DEFAULT_WHITE_CHARS self instring loc
            (pre ++ VParamValue n w true :: post) h
  = (Raise ExAttributeError, snd (alloc h)).
Proof.
  intros Hsgp Hs Hn Hctx Hl Hp Hc.
  rewrite postParse_run, Hsgp, bind_run, postParse_tokens_app, bind_run.
  destruct (tokens_items_scalar pre [] Hs) as (d & Ed & Gd & _).
  rewrite (postParse_tokens_scalar
             _ _ (MkCompValue (next_oid h) (Comp.name self) []) _ d Hs Ed).
  cbn [oid name postParse_tokens]. rewrite bind_run.
  cbn [postParse_token items].
  assert (Gn : OrderedDict.get n d = Some cur) by now rewrite Gd, Hn.
  assert (Gc : OrderedDict.get "ctx" d = None) by now rewrite Gd, Hctx.
  unfold OrderedDict.contains at 1. rewrite Gn. rewrite bind_run.
  rewrite getitem_run. cbn [items]. rewrite Gn.
  rewrite read_ctx_unset by apply alloc_run.
  cbn [items]. unfold OrderedDict.contains. rewrite Gc.
  rewrite bind_run.
  destruct cur; try discriminate; reflexivity.
Qed.

(** X14. Whatever tokens a production has, when the last token labelled
    [n] comes from a plain [Param] and [postParse] returns a node, the
    node holds the value of that token under [n], also where tokens of a
    [ParamList] had made a list under [n] before. *)
Theorem postParse_last_scalar_wins (self : Comp.t) (instring : string)
        (loc : nat) (pre post : list Val) (n : string) (v : Val)
        (h h' : Heap) (r : Val) :
  uses true n post = false ->
  uses false n post = false ->
  postParse evalfns DEFAULT_WHITE_CHARS self instring loc
            (pre ++ VParamValue n v false :: post) h = (Ok r, h') ->
  exists c, r = built self c /\ OrderedDict.get n (items c) = Some v.
Proof.
  intros Ht Hf. rewrite postParse_run.
  assert (Hloop : forall res0 h0 res2 h2,
             postParse_tokens evalfns res0
               (pre ++ VParamValue n v false :: post) h0 = (Ok res2, h2) ->
             OrderedDict.get n (items res2) = Some v).
  { intros res0 h0 res2 h2. rewrite postParse_tokens_app, bind_run.
    destruct (postParse_tokens evalfns res0 pre h0) as [[res1|e] h1];
      [|discriminate].
    cbn [postParse_tokens]. rewrite bind_run. cbn [postParse_token ret].
    intros H. rewrite (postParse_tokens_other _ _ _ _ _ _ _ H Ht Hf).
    cbn [items setitem]. apply get_setitem_eq. }
  destruct (is_ServiceGraphPattern self) eqn:Hsgp.
  - destruct (scanString _ _ _ _ _) as [[ms|e] h2]; [|discriminate].
    destruct ms as [|[[[|tk tks] start] stop] more]; try discriminate.
    rewrite bind_run.
    destruct (postParse_tokens evalfns _ _ h2) as [[res|e] h3] eqn:E;
      [|discriminate].
    intros [= <- <-]. exists res. split; [|eapply Hloop, E].
    unfold built, is_ServiceGraphPattern in *.
    now destruct (Comp.evalfn self).
  - rewrite bind_run.
    destruct (postParse_tokens evalfns _ _ _) as [[res|e] h3] eqn:E;
      [|discriminate].
    intros [= <- <-]. exists res. split; [reflexivity | eapply Hloop, E].
Qed.

(** X22. A [Comp] as a grammar element, no Service Graph Pattern: where
    its rule matches with plain [Param] tokens, the element matches the
    same extent and gives one token, the node, with the name of the
    [Comp], the identity of a new object and under each name the value of
    the last token of that name; where its rule raises, the element raises
    the same and makes no node. *)
Theorem Comp_element_one_token (self : Comp.t) (instring : string)
        (loc : nat) (h h1 : Heap) :
  is_ServiceGraphPattern self = false ->
  (forall stop toks,
      parseImpl (Comp.expr self) instring loc h = (Ok (stop, toks), h1) ->
      scalar_only toks = true ->
      exists c,
        parseImpl (Comp_element evalfns DEFAULT_WHITE_CHARS self) instring loc h
        = (Ok (stop, [built self c]), snd (alloc h1))
        /\ name c = Comp.name self
        /\ oid c = next_oid h1
        /\ forall a, OrderedDict.get a (items c) = last_value a toks)
  /\ (forall e,
        parseImpl (Comp.expr self) instring loc h = (Raise e, h1) ->
        parseImpl (Comp_element evalfns DEFAULT_WHITE_CHARS self) instring loc h
        = (Raise e, h1)).
Proof.
  intros Hsgp. split.
  - intros stop toks Hrule Hs.
    destruct (tokens_items_scalar toks [] Hs) as (d & Ed & Gd & _).
    exists (MkCompValue (next_oid h1) (Comp.name self) d).
    split; [|split; [reflexivity | split; [reflexivity|]]].
    + cbn [Comp_element TokenConverter parseImpl].
      rewrite bind_run, Hrule. cbn [fst snd].
      rewrite !bind_run, postParse_run, Hsgp, bind_run.
      now rewrite (postParse_tokens_scalar
                     _ _ (MkCompValue (next_oid h1) (Comp.name self) []) _ d
                     Hs Ed).
    + intros a. cbn [items]. rewrite Gd. now destruct (last_value a toks).
  - intros e Hrule. cbn [Comp_element TokenConverter parseImpl].
    now rewrite bind_run, Hrule.
Qed.

End PostParseOrder.

(** ** The lines of a tab separated source *)

(** [line.strip("\n")] *)
Definition strip_newlines (line : string) : string :=
  strip_chars (String newline EmptyString) line.

Lemma fst_zip_take {A B} (l : list A) : forall k : list B,
  map fst (zip l k) = take (length k) l.
Proof.
  induction l as [|x l IH]; intros [|y k]; cbn; try reflexivity.
  now rewrite IH.
Qed.

Lemma take_min_length {A} (l : list A) n :
  take (Nat.min (length l) n) l = take n l.
Proof.
  destruct (Nat.le_ge_cases n (length l)) as [H|H].
  - now rewrite Nat.min_r.
  - rewrite Nat.min_l by exact H. rewrite firstn_all.
    symmetry. now apply take_ge.
Qed.

Section TSVLines.

Variable evalfns : FnId -> Expr -> Ctx -> M Val.
Variable DEFAULT_WHITE_CHARS : string.
Variables STRING_LITERAL1 STRING_LITERAL2 LANGTAG IRIREF BLANK_NODE_LABEL
          NumericLiteral BooleanLiteral Var : ParserElement.

Local Abbreviation data_rows :=
  (parse_lines evalfns DEFAULT_WHITE_CHARS STRING_LITERAL1 STRING_LITERAL2
               LANGTAG IRIREF BLANK_NODE_LABEL NumericLiteral BooleanLiteral).
Local Abbreviation the_ROW :=
  (ROW evalfns DEFAULT_WHITE_CHARS STRING_LITERAL1 STRING_LITERAL2 LANGTAG
       IRIREF BLANK_NODE_LABEL NumericLiteral BooleanLiteral).
Local Abbreviation the_row_layout :=
  (row_layout evalfns DEFAULT_WHITE_CHARS STRING_LITERAL1 STRING_LITERAL2
              LANGTAG IRIREF BLANK_NODE_LABEL NumericLiteral BooleanLiteral).
Local Abbreviation read_source :=
  (parse evalfns DEFAULT_WHITE_CHARS STRING_LITERAL1 STRING_LITERAL2
         LANGTAG IRIREF BLANK_NODE_LABEL NumericLiteral BooleanLiteral Var).

(** One turn of the loop of [parse] on a line that is not blank. *)
Lemma data_rows_step vars l rest h :
  l <> "" -> strip_newlines l <> "" ->
  data_rows vars (l :: rest) h
  = match parseString TSV_WHITE true the_ROW (strip_newlines l) true h with
    | (Ok row, h1) =>
        match mapM (convertTerm evalfns) (take (length vars) row) h1 with
        | (Ok terms, h2) =>
            match data_rows vars rest h2 with
            | (Ok bindings, h3) => (Ok (zip vars terms :: bindings), h3)
            | (Raise e, h3) => (Raise e, h3)
            end
        | (Raise e, h2) => (Raise e, h2)
        end
    | (Raise e, h1) => (Raise e, h1)
    end.
Proof.
  intros Hl Hb. cbn [parse_lines]. unfold strip_newlines in *.
  rewrite (proj2 (String.eqb_neq _ _) Hl), (proj2 (String.eqb_neq _ _) Hb).
  reflexivity.
Qed.

(** A blank line is passed over. *)
Lemma data_rows_blank vars b rest h :
  b <> "" -> strip_newlines b = "" ->
  data_rows vars (b :: rest) h = data_rows vars rest h.
Proof.
  intros Hl Hb. cbn [parse_lines]. unfold strip_newlines in *.
  now rewrite (proj2 (String.eqb_neq _ _) Hl), Hb.
Qed.

(** The rows of a source in two parts. *)
Lemma data_rows_app vars pre : forall post h,
  Forall (fun l => l <> "") pre ->
  data_rows vars (pre ++ post) h
  = (bs1 <- data_rows vars pre ;;
     bs2 <- data_rows vars post ;;
     ret (bs1 ++ bs2)) h.
Proof.
  induction pre as [|l pre IH]; intros post h Hpre.
  - cbn [app]. rewrite bind_run. cbn [parse_lines ret]. rewrite bind_run.
    now destruct (data_rows vars post h) as [[bs|e] h1].
  - apply Forall_cons in Hpre as [Hl Hpre]. cbn [app].
    destruct (decide (strip_newlines l = "")) as [Hb|Hb].
    + rewrite data_rows_blank, IH, !bind_run by assumption.
      now rewrite data_rows_blank by assumption.
    + rewrite bind_run, !data_rows_step by assumption.
      destruct (parseString _ _ _ _ _ h) as [[row|e] h1]; [|reflexivity].
      destruct (mapM _ _ h1) as [[terms|e] h2]; [|reflexivity].
      rewrite IH, bind_run by assumption.
      destruct (data_rows vars pre h2) as [[bs1|e] h3]; [|reflexivity].
      rewrite !bind_run.
      now destruct (data_rows vars post h3) as [[bs2|e] h4].
Qed.

(** X15. A blank line, one of line breaks only, changes nothing wherever it
    stands among the data lines. *)
Theorem blank_lines_are_skipped (vars : list Val) (pre post : list string)
        (b : string) (h : Heap) :
  b <> "" -> strip_newlines b = "" ->
  data_rows vars (pre ++ b :: post) h = data_rows vars (pre ++ post) h.
Proof.
  intros Hl Hb. revert h. induction pre as [|l pre IH]; intros h.
  - now apply data_rows_blank.
  - cbn [app]. destruct (String.eqb_spec l "") as [->|Hne]; [reflexivity|].
    destruct (decide (strip_newlines l = "")) as [Hlb|Hlb].
    + now rewrite !data_rows_blank by assumption.
    + rewrite !data_rows_step by assumption.
      destruct (parseString _ _ _ _ _ h) as [[row|e] h1]; [|reflexivity].
      destruct (mapM _ _ h1) as [[terms|e] h2]; [|reflexivity].
      now rewrite IH.
Qed.

(** X16. The source is read line by line: the rows of two runs of lines
    one after the other are the rows of the first run followed by the rows
    of the second, read in the heap the first run left, and an exception
    of either run is the exception of the whole. *)
Theorem rows_line_by_line (vars : list Val) (pre post : list string)
        (h : Heap) :
  Forall (fun l => l <> "") pre ->
  data_rows vars (pre ++ post) h
  = (bs1 <- data_rows vars pre ;;
     bs2 <- data_rows vars post ;;
     ret (bs1 ++ bs2)) h.
Proof. apply data_rows_app. Qed.

(** X17. When the data lines are read without an exception, the result
    has one row for every line that is not blank, in order. *)
Theorem one_row_per_line (vars : list Val) (lines : list string) :
  Forall (fun l => l <> "") lines ->
  forall h bs h',
    data_rows vars lines h = (Ok bs, h') ->
    length bs = length (filter (fun l => strip_newlines l <> "") lines).
Proof.
  induction 1 as [|l lines Hl _ IH]; intros h bs h'.
  - intros [= <- _]. reflexivity.
  - rewrite filter_cons.
    destruct (decide (strip_newlines l <> "")) as [Hb|Hb].
    + rewrite data_rows_step by assumption.
      destruct (parseString _ _ _ _ _ h) as [[row|e] h1]; [|discriminate].
      destruct (mapM _ _ h1) as [[terms|e] h2]; [|discriminate].
      destruct (data_rows vars lines h2) as [[bs'|e] h3] eqn:E; [|discriminate].
      intros [= <- _]. cbn. f_equal. eapply IH, E.
    + rewrite data_rows_blank; [apply IH | exact Hl |].
      destruct (decide (strip_newlines l = "")); [assumption | contradiction].
Qed.


(** X19. A data line that is no row makes [parse] fail as a whole: after
    lines read without an exception, the exception of matching the line
    is the outcome, and the rows read before are lost. *)
Theorem bad_row_fails (vars : list Val) (pre : list string) (l : string)
        (rest : list string) (bs : list (list (Val * Val))) (e : PyExc)
        (h h1 h2 : Heap) :
  Forall (fun l => l <> "") pre ->
  data_rows vars pre h = (Ok bs, h1) ->
  l <> "" ->
  strip_newlines l <> "" ->
  parseString TSV_WHITE true the_ROW (strip_newlines l) true h1
  = (Raise e, h2) ->
  data_rows vars (pre ++ l :: rest) h = (Raise e, h2).
Proof.
  intros Hpre Hbs Hl Hb Hfail.
  rewrite data_rows_app, bind_run, Hbs, bind_run by assumption.
  rewrite data_rows_step by assumption. now rewrite Hfail.
Qed.

(** X20. A source whose first line is empty or blank: matching the header
    raises what the rule of a variable raises on the empty string, and
    [parse] returns no result. *)
Theorem blank_header_fails (source : list string) (e : PyExc) (h h' : Heap) :
  strip (hd "" source) = "" ->
  parseImpl Var "" 0 h = (Raise e, h') ->
  read_source source h = (Raise e, h').
Proof.
  intros Hs HVar. unfold parse. cbv zeta. rewrite Hs, bind_run.
  unfold parseString. cbv zeta. rewrite bind_run.
  unfold _parse at 1, preParse, HEADER.
  cbn [skipWhitespace whiteChars parseImpl And String.length Nat.sub skip].
  destruct (skipWhitespace Var); now rewrite bind_run, HVar.
Qed.

(** What a [Param] gives where it matches: one labelled token. *)
Lemma Param_one_token n e isList line loc h stop toks h' :
  parseImpl (Param n e isList) line loc h = (Ok (stop, toks), h') ->
  exists raw, toks = [Param.postParse2 n isList raw].
Proof.
  cbn [Param TokenConverter parseImpl]. rewrite bind_run.
  destruct (parseImpl e line loc h) as [[[stop1 raw]|x] h1]; [|discriminate].
  cbn. intros [= _ <- _]. eauto.
Qed.

Lemma Param_parse_one_token n e isList line loc h stop toks h' :
  _parse (Param n e isList) line loc h = (Ok (stop, toks), h') ->
  exists raw, toks = [Param.postParse2 n isList raw].
Proof. unfold _parse. apply Param_one_token. Qed.

(** The rule of a language or a datatype after the string. *)
Definition literal_suffix : ParserElement :=
  MatchFirst TSV_WHITE
    [Param "lang" (leaveWhitespace LANGTAG) false;
     And (leaveWhitespace (Literal TSV_WHITE "^^"))
         [leaveWhitespace (Param "datatype" IRIREF false)]].

Lemma literal_suffix_tokens line loc h stop toks h' :
  parseImpl literal_suffix line loc h = (Ok (stop, toks), h') ->
  (exists raw, toks = [Param.postParse2 "lang" false raw])
  \/ (exists raw, toks = [VStr "^^"; Param.postParse2 "datatype" false raw]).
Proof.
  unfold literal_suffix. cbn [MatchFirst parseImpl MatchFirst_alternatives].
  rewrite bind_run. unfold try_match at 1.
  destruct (_parse (Param "lang" _ false) line loc h) as [[[p t]|x] h1] eqn:E1.
  - intros [= _ <- _]. left. eapply Param_parse_one_token, E1.
  - assert (Hnext :
      (r <- try_match
              (_parse (And (leaveWhitespace (Literal TSV_WHITE "^^"))
                           [leaveWhitespace (Param "datatype" IRIREF false)])
                      line loc) ;;
       match r with
       | Some r => ret r
       | None => raise (ExParseException loc)
       end) h1 = (Ok (stop, toks), h') ->
      exists raw, toks = [VStr "^^"; Param.postParse2 "datatype" false raw]).
    { rewrite bind_run. unfold try_match, _parse at 1.
      cbn [And parseImpl leaveWhitespace Literal]. rewrite bind_run.
      destruct (startswith line "^^" _); [|discriminate].
      cbn [ret fst snd And_rest]. rewrite bind_run. unfold _parse.
      cbn [parseImpl leaveWhitespace].
      destruct (parseImpl (Param "datatype" IRIREF false) line _ h1)
        as [[[p t]|y] h2] eqn:E2; [|destruct y; discriminate].
      apply Param_one_token in E2 as [raw ->].
      cbn. intros [= _ <- _]. eauto. }
    destruct x; try discriminate; intros H; right; exact (Hnext H).
Qed.

Local Abbreviation the_RDFLITERAL :=
  (RDFLITERAL evalfns DEFAULT_WHITE_CHARS STRING_LITERAL1 STRING_LITERAL2
              LANGTAG IRIREF).

(** X23. A literal of the tabular grammar, wherever [RDFLITERAL] matches:
    one node named ["literal"] that holds the string and besides at most
    one of a language and a datatype, never both. *)
Theorem RDFLITERAL_keys (line : string) (loc stop : nat) (toks : list Val)
        (h h' : Heap) :
  parseImpl the_RDFLITERAL line loc h = (Ok (stop, toks), h') ->
  exists c,
    toks = [VCompValue c] /\ name c = "literal"
    /\ (OrderedDict.keys (items c) = ["string"]
        \/ OrderedDict.keys (items c) = ["string"; "lang"]
        \/ OrderedDict.keys (items c) = ["string"; "datatype"]).
Proof.
  unfold RDFLITERAL. fold literal_suffix.
  cbn [Comp_element TokenConverter parseImpl Comp.expr].
  rewrite bind_run. cbn [And parseImpl]. rewrite bind_run.
  destruct (parseImpl (Param "string" _ false) line loc h)
    as [[[p1 t1]|x] h1] eqn:E1; [|discriminate].
  apply Param_one_token in E1 as [raw1 ->].
  cbn [And_rest fst snd]. rewrite bind_run.
  unfold _parse at 1. cbn [Optional parseImpl]. rewrite bind_run.
  unfold try_match at 1.
  set (q := preParse _ line p1).
  assert (Hbuild : forall rule_toks d p2 h2,
             scalar_only rule_toks = true ->
             tokens_items [] rule_toks = Some d ->
             (toks0 <- (res <- postParse evalfns DEFAULT_WHITE_CHARS
                                 (Comp.Make "literal"
                                    (And (Param "string"
                                            (String_ STRING_LITERAL1
                                                     STRING_LITERAL2) false)
                                         [Optional literal_suffix]) None)
                                 line p2 rule_toks ;;
                        ret [res]) ;;
              ret (p2, toks0)) h2
             = (Ok (p2, [VCompValue (MkCompValue (next_oid h2) "literal" d)]),
                snd (alloc h2))).
  { intros rule_toks d p2 h2 Hs Ed.
    rewrite !bind_run, postParse_run. cbn [is_ServiceGraphPattern Comp.evalfn
      Comp.name String.eqb Ascii.eqb Bool.eqb]. rewrite bind_run.
    now rewrite (postParse_tokens_scalar
                   _ _ (MkCompValue (next_oid h2) "literal" []) _ d Hs Ed). }
  destruct (parseImpl literal_suffix line q h1) as [[[p2 t2]|x] h2] eqn:E2.
  - cbn [ret And_rest fst snd].
    apply literal_suffix_tokens in E2 as [[raw ->]|[raw ->]].
    + rewrite (Hbuild _ [("string", collapse (VParseResults raw1));
                         ("lang", collapse (VParseResults raw))])
        by reflexivity.
      intros [= _ <- _]. eexists. split; [reflexivity|]. split; [reflexivity|].
      right. left. reflexivity.
    + rewrite (Hbuild _ [("string", collapse (VParseResults raw1));
                         ("datatype", collapse (VParseResults raw))])
        by reflexivity.
      intros [= _ <- _]. eexists. split; [reflexivity|]. split; [reflexivity|].
      right. right. reflexivity.
  - destruct x; try discriminate;
      cbn [ret And_rest fst snd app];
      rewrite (Hbuild _ [("string", collapse (VParseResults raw1))])
        by reflexivity;
      intros [= _ <- _]; eexists; (split; [reflexivity|]);
      (split; [reflexivity|]); left; reflexivity.
Qed.

End TSVLines.

(** * Examples: the properties at concrete inputs *)

Import Samples.

(** The heap in which a context is attached to a node and the one in which
    it has been reset since. *)
Definition attached (self : CompValue) (ctx : Ctx) : Heap :=
  with_ctx self (Some ctx) empty_heap.
Definition detached (self : CompValue) (ctx : Ctx) : Heap :=
  with_ctx self None (attached self ctx).

(** C2 at three nodes: one whose function resolves an unbound variable,
    one whose function divides by zero, one whose function adds 3 and 4. *)
Lemma eval_returns_domain_errors_witness :
  (call_evalfn (fns 1) arg_node ctx_empty (attached (base arg_node) ctx_empty)
   = (Raise (ExSPARQL (NotBoundError None)), attached (base arg_node) ctx_empty)
   /\ eval (fns 1) arg_node ctx_empty empty_heap
      = (Ok (VError (NotBoundError None)), detached (base arg_node) ctx_empty))
  /\ (call_evalfn (fns 1) div_node ctx_empty (attached (base div_node) ctx_empty)
      = (Raise (ExOther "ZeroDivisionError"), attached (base div_node) ctx_empty)
      /\ (forall e, ExOther "ZeroDivisionError" <> ExSPARQL e)
      /\ eval (fns 1) div_node ctx_empty empty_heap
         = (Raise (ExOther "ZeroDivisionError"),
            detached (base div_node) ctx_empty))
  /\ (call_evalfn (fns 1) sum_node ctx_empty (attached (base sum_node) ctx_empty)
      = (Ok (VInt 7), attached (base sum_node) ctx_empty)
      /\ eval (fns 1) sum_node ctx_empty empty_heap
         = (Ok (VInt 7), detached (base sum_node) ctx_empty)).
Proof.
  split; [|split].
  - assert (Hc : call_evalfn (fns 1) arg_node ctx_empty
                   (attached (base arg_node) ctx_empty)
                 = (Raise (ExSPARQL (NotBoundError None)),
                    attached (base arg_node) ctx_empty)) by reflexivity.
    split; [exact Hc|].
    exact (proj1 (eval_returns_domain_errors (fns 1) arg_node ctx_empty
                    empty_heap _) _ Hc).
  - assert (Hc : call_evalfn (fns 1) div_node ctx_empty
                   (attached (base div_node) ctx_empty)
                 = (Raise (ExOther "ZeroDivisionError"),
                    attached (base div_node) ctx_empty)) by reflexivity.
    assert (Hx : forall e, ExOther "ZeroDivisionError" <> ExSPARQL e)
      by (intros e; discriminate).
    split; [exact Hc|]. split; [exact Hx|].
    exact (proj1 (proj2 (eval_returns_domain_errors (fns 1) div_node ctx_empty
                           empty_heap _)) _ Hc Hx).
  - assert (Hc : call_evalfn (fns 1) sum_node ctx_empty
                   (attached (base sum_node) ctx_empty)
                 = (Ok (VInt 7), attached (base sum_node) ctx_empty))
      by reflexivity.
    split; [exact Hc|].
    exact (proj2 (proj2 (eval_returns_domain_errors (fns 1) sum_node ctx_empty
                           empty_heap _)) _ Hc).
Defined.

(** C3 at the variable [?v]: with an error stored, with 5 bound, and
    unbound under either setting of [variables]. *)
Lemma value_of_placeholder_witness :
  isinstance_BNode_Variable (VVariable "v") = true
  /\ (ctx_get ctx_verr (VVariable "v") = VError boom
      /\ value no_fns ctx_verr (VVariable "v") false false empty_heap
         = (Raise (ExSPARQL boom), empty_heap))
  /\ (ctx_get ctx_v5 (VVariable "v") = VInt 5
      /\ value no_fns ctx_v5 (VVariable "v") false false empty_heap
         = (Ok (VInt 5), empty_heap))
  /\ (ctx_get ctx_empty (VVariable "v") = VNone
      /\ value no_fns ctx_empty (VVariable "v") true false empty_heap
         = (Ok (VVariable "v"), empty_heap)
      /\ value no_fns ctx_empty (VVariable "v") false false empty_heap
         = (Raise (ExSPARQL (NotBoundError None)), empty_heap)).
Proof.
  assert (Hv : isinstance_BNode_Variable (VVariable "v") = true) by reflexivity.
  assert (He : ctx_get ctx_verr (VVariable "v") = VError boom) by reflexivity.
  assert (H5 : ctx_get ctx_v5 (VVariable "v") = VInt 5) by reflexivity.
  assert (Hn : ctx_get ctx_empty (VVariable "v") = VNone) by reflexivity.
  split; [exact Hv|]. split; [|split].
  - split; [exact He|].
    exact (proj1 (value_of_placeholder no_fns ctx_verr _ false false empty_heap Hv)
             boom He eq_refl).
  - split; [exact H5|].
    refine (proj1 (proj2 (value_of_placeholder no_fns ctx_v5 _ false false
                            empty_heap Hv)) _ H5 _ (or_introl eq_refl)).
    discriminate.
  - split; [exact Hn|]. split.
    + exact (proj1 (proj2 (proj2 (value_of_placeholder no_fns ctx_empty _ true
                                    false empty_heap Hv))) Hn eq_refl).
    + exact (proj2 (proj2 (proj2 (value_of_placeholder no_fns ctx_empty _ false
                                    false empty_heap Hv))) Hn eq_refl).
Defined.

(** C8 at a literal. *)
Definition hi_en : Val := VLiteral (VStr "hi") (VStr "en") VNone.

Lemma value_identity_witness :
  (isinstance_Expr hi_en = false /\ isinstance_CompValue hi_en = false
   /\ isinstance_list hi_en = false /\ isinstance_BNode_Variable hi_en = false
   /\ is_single_ParseResults hi_en = false)
  /\ value no_fns ctx_v5 hi_en false false empty_heap = (Ok hi_en, empty_heap).
Proof.
  split; [repeat split|].
  exact (value_identity no_fns ctx_v5 hi_en false false empty_heap
           eq_refl eq_refl eq_refl eq_refl eq_refl).
Defined.

(** C4 at a node that holds the variable [?v] under ["arg"], with the
    context [{?v: SPARQLError("boom")}] attached: resolution with [errors]
    on returns the stored error, while [get] called with [errors] on raises
    it, as resolution with [errors] off does. *)
Example get_drops_errors :
  read_ctx (base arg_node) (attached (base arg_node) ctx_verr)
  = (Ok (Some ctx_verr), attached (base arg_node) ctx_verr)
  /\ value no_fns ctx_verr (VVariable "v") false true
           (attached (base arg_node) ctx_verr)
     = (Ok (VError boom), attached (base arg_node) ctx_verr)
  /\ get no_fns (base arg_node) "arg" false true
         (attached (base arg_node) ctx_verr)
     = (Raise (ExSPARQL boom), attached (base arg_node) ctx_verr)
  /\ get no_fns (base arg_node) "arg" false true
         (attached (base arg_node) ctx_verr)
     = value no_fns ctx_verr (VVariable "v") false false
             (attached (base arg_node) ctx_verr).
Proof. repeat split. Qed.



(** Tokens for the examples: [x=3 "+" y=4 x=5], and three items between
    commas, the second a match of two tokens. *)
Definition sum_tokens : list Val :=
  [Param.postParse2 "x" false [VInt 3]; VStr "+";
   Param.postParse2 "y" false [VInt 4]; Param.postParse2 "x" false [VInt 5]].

Definition item_tokens : list Val :=
  [Param.postParse2 "item" true [VInt 1]; VStr ",";
   Param.postParse2 "item" true [VInt 2; VInt 3]; VStr ",";
   Param.postParse2 "item" true [VInt 4]].

(** C5 at [x=3 "+" y=4 x=5]: the keys are [x] and [y], the ["+"] is
    dropped, and [x] holds 5. *)
Lemma postParse_scalar_names_witness :
  scalar_only sum_tokens = true
  /\ is_ServiceGraphPattern Sum = false
  /\ exists c,
      postParse no_fns W Sum "3+4" 3 sum_tokens empty_heap
      = (Ok (built Sum c), snd (alloc empty_heap))
      /\ name c = Comp.name Sum
      /\ NoDup (OrderedDict.keys (items c))
      /\ (forall a, a ∈ OrderedDict.keys (items c) <-> a ∈ labels sum_tokens)
      /\ (forall a, OrderedDict.get a (items c) = last_value a sum_tokens).
Proof.
  split; [reflexivity|]. split; [reflexivity|].
  exact (postParse_scalar_names no_fns W Sum "3+4" 3 sum_tokens empty_heap
           eq_refl eq_refl).
Defined.

(** C5 as stated fails for a Service Graph Pattern without evaluation
    function: with the one token [term] the node has the keys
    [service_string] and [term]. *)
Lemma postParse_scalar_names_counterexample :
  scalar_only [Param.postParse2 "term" false [VURIRef "e"]] = true
  /\ labels [Param.postParse2 "term" false [VURIRef "e"]] = ["term"]
  /\ postParse no_fns W sgp_comp "SERVICE" 7
               [Param.postParse2 "term" false [VURIRef "e"]] empty_heap
     = (Ok (VCompValue
              (MkCompValue 0 "ServiceGraphPattern"
                 [("service_string", VStr "SERVICE"); ("term", VURIRef "e")])),
        snd (alloc empty_heap))
  /\ OrderedDict.keys [("service_string", VStr "SERVICE"); ("term", VURIRef "e")]
     <> ["term"].
Proof. repeat split. discriminate. Qed.

(** C6 at three items: the attribute is the list of the three collapsed
    matches, in order. *)
Lemma postParse_list_attribute_witness :
  uses false "item" item_tokens = false
  /\ values_of "item" item_tokens <> []
  /\ is_ServiceGraphPattern items_comp = false
  /\ consistent item_tokens = true
  /\ uses true "ctx" item_tokens = false
  /\ uses false "ctx" item_tokens = false
  /\ exists c,
      postParse no_fns W items_comp "x,x,x" 5 item_tokens empty_heap
      = (Ok (built items_comp c), snd (alloc empty_heap))
      /\ OrderedDict.get "item" (items c)
         = Some (VPlist [VInt 1; VParseResults [VInt 2; VInt 3]; VInt 4])
      /\ length (values_of "item" item_tokens) = 3.
Proof.
  assert (Hf : uses false "item" item_tokens = false) by reflexivity.
  assert (Hv : values_of "item" item_tokens <> []) by discriminate.
  assert (Hs : is_ServiceGraphPattern items_comp = true ->
               forall ms h2,
                 scanString (sgp W items_comp) "x,x,x" 0
                            (S (String.length "x,x,x")) (snd (alloc empty_heap))
                 = (Ok ms, h2) ->
                 ctx_of h2 !! next_oid empty_heap = None)
    by (intros [=]).
  destruct (postParse_list_attribute no_fns W items_comp "x,x,x" 5 item_tokens
              "item" empty_heap Hf Hs) as (Hnode & _ & Hbuilt & _).
  destruct (Hbuilt eq_refl eq_refl eq_refl eq_refl) as (v & Hrun).
  destruct (Hnode Hv v _ Hrun) as (c & -> & Hget & Hlen).
  repeat (split; [first [reflexivity | exact Hv]|]).
  exists c. split; [exact Hrun|]. split; [exact Hget | exact Hlen].
Defined.

(** C7 at a Service Graph Pattern matched once in the input: the node
    holds the matched text. *)
Lemma postParse_service_string_witness :
  uses true "service_string" [Param.postParse2 "term" false [VURIRef "e"]] = false
  /\ uses false "service_string" [Param.postParse2 "term" false [VURIRef "e"]]
     = false
  /\ is_ServiceGraphPattern sgp_comp = true
  /\ scanString (sgp W sgp_comp) "SERVICE" 0 (S (String.length "SERVICE"))
                (snd (alloc empty_heap))
     = (Ok [([VStr "SERVICE"], 0, 7)], snd (alloc empty_heap))
  /\ scalar_only [Param.postParse2 "term" false [VURIRef "e"]] = true
  /\ exists c,
      postParse no_fns W sgp_comp "SERVICE" 7
                [Param.postParse2 "term" false [VURIRef "e"]] empty_heap
      = (Ok (VCompValue c), snd (alloc empty_heap))
      /\ OrderedDict.get "service_string" (items c)
         = Some (VStr (slice "SERVICE" 0 7))
      /\ (forall a, a ∈ OrderedDict.keys (items c)
                    <-> a = "service_string"
                        \/ a ∈ labels [Param.postParse2 "term" false
                                                        [VURIRef "e"]]).
Proof.
  assert (Hscan : scanString (sgp W sgp_comp) "SERVICE" 0
                             (S (String.length "SERVICE"))
                             (snd (alloc empty_heap))
                  = (Ok [([VStr "SERVICE"], 0, 7)], snd (alloc empty_heap)))
    by reflexivity.
  repeat (split; [first [reflexivity | exact Hscan]|]).
  exact (proj2 (proj1 (postParse_service_string no_fns W sgp_comp "SERVICE" 7
                         [Param.postParse2 "term" false [VURIRef "e"]]
                         empty_heap eq_refl eq_refl)
                 eq_refl _ _ _ _ _ Hscan) eq_refl).
Defined.

(** C7 as stated fails twice.  A Service Graph Pattern with an
    evaluation function gets no key [service_string].  And where the
    pattern matches twice in the input, the node of the second match, which
    spans ["SB"], stores the text of the first, ["SA"]. *)
Lemma postParse_service_string_counterexample :
  (Comp.name sgp_eval_comp = "ServiceGraphPattern"
   /\ postParse no_fns W sgp_eval_comp "SERVICE" 7 [] empty_heap
      = (Ok (VExpr (MkExpr (MkCompValue 0 "ServiceGraphPattern" []) (Some 0))),
         snd (alloc empty_heap)))
  /\ (_parse (Comp.expr sgp_two_comp) "SA SB" 2 (snd (alloc empty_heap))
      = (Ok (5, [VStr "SB"]), snd (alloc empty_heap))
      /\ slice "SA SB" 3 5 = "SB"
      /\ postParse no_fns W sgp_two_comp "SA SB" 5 [] empty_heap
         = (Ok (VCompValue
                  (MkCompValue 0 "ServiceGraphPattern"
                     [("service_string", VStr "SA")])),
            snd (alloc empty_heap))).
Proof. repeat split. Qed.

(** The row of the spec's first tabular scenario: the variables of the
    header, the node of its literal and the heap in which it was built. *)
Definition vars_ab : list Val := [VVariable "a"; VVariable "b"].

Definition hi_node : CompValue :=
  MkCompValue 0 "literal" [("string", VStr "hi"); ("lang", VStr "en")].

Definition heap1 : Heap := snd (alloc empty_heap).



(** Tabs are expanded to columns of 8, counted from the last line break. *)
Example expandtabs_columns :
  expandtabs ("ab" +:+ TAB +:+ "c" +:+ NL +:+ TAB +:+ "d")
  = "ab      c" +:+ NL +:+ "        d".
Proof. reflexivity. Qed.

(** The two tabular scenarios of the spec, from the source to the result. *)
Example parse_scenarios :
  Terminals.parse [header_ab; line_hi] empty_heap
  = (Ok (MkResult vars_ab
                  [[(VVariable "a", hi_en); (VVariable "b", VNone)]]), heap1)
  /\ Terminals.parse [header_ab; line_42] empty_heap
     = (Ok (MkResult vars_ab
                     [[(VVariable "a", RDFLiteral (VInt 42) VNone VNone);
                       (VVariable "b", RDFLiteral (VBool true) VNone VNone)]]),
        empty_heap).
Proof. split; reflexivity. Qed.

(** The scenario of the sum: parsing ["3+4"] builds the node with [x = 3]
    and [y = 4], evaluating it in the empty context gives 7, and leaves the
    node without a context. *)
Example Sum_scenario :
  parseString W false (Comp_element (fns 1) W Sum) "3+4" true empty_heap
  = (Ok [VExpr (MkExpr (MkCompValue 0 "Sum" [("x", VInt 3); ("y", VInt 4)])
                       (Some 0))], heap1)
  /\ fst (eval (fns 1)
               (MkExpr (MkCompValue 0 "Sum" [("x", VInt 3); ("y", VInt 4)])
                       (Some 0)) ctx_empty heap1)
     = Ok (VInt 7)
  /\ ctx_of (snd (eval (fns 1)
                       (MkExpr (MkCompValue 0 "Sum"
                                  [("x", VInt 3); ("y", VInt 4)]) (Some 0))
                       ctx_empty heap1)) !! 0
     = Some None.
Proof. repeat split. Qed.

(** * Examples: the further properties at concrete inputs *)

(** A heap in which the sample nodes exist, none of them with a context,
    and the same with a context attached to one of them. *)
Definition heap8 : Heap := MkHeap ∅ 8.

Definition attached8 (self : CompValue) (ctx : Ctx) : Heap :=
  with_ctx self (Some ctx) heap8.

(** [Expr("Bare")], a node without evaluation function. *)
Definition bare_node : Expr := MkExpr (MkCompValue 5 "Bare" []) None.

(** X2 at [Expr("Bare")]. *)
Lemma eval_without_function_witness :
  _evalfn bare_node = None
  /\ eval (fns 1) bare_node ctx_empty heap8
     = (Raise ExTypeError,
        with_ctx (base bare_node) None (attached8 (base bare_node) ctx_empty)).
Proof.
  split; [reflexivity|].
  exact (eval_without_function (fns 1) bare_node ctx_empty heap8 eq_refl).
Defined.


(** A node that holds an evaluable node and a node that is not. *)
Definition outer_node : CompValue :=
  MkCompValue 6 "Outer"
              [("inner", VExpr arg_node); ("lit", VCompValue hi_node)].

(** X5 at that node with [{?v: 5}] attached. *)
Lemma attached_read_of_nested_node_witness :
  read_ctx outer_node (attached8 outer_node ctx_v5)
  = (Ok (Some ctx_v5), attached8 outer_node ctx_v5)
  /\ __getitem__ (fns 2) outer_node "inner" (attached8 outer_node ctx_v5)
     = eval (fns 2) arg_node ctx_v5 (attached8 outer_node ctx_v5)
  /\ __getitem__ (fns 2) outer_node "lit" (attached8 outer_node ctx_v5)
     = (Raise (ExException "What do I do with this CompValue?"),
        attached8 outer_node ctx_v5).
Proof.
  assert (Hc : read_ctx outer_node (attached8 outer_node ctx_v5)
               = (Ok (Some ctx_v5), attached8 outer_node ctx_v5))
    by reflexivity.
  split; [exact Hc|]. split.
  - exact (proj1 (attached_read_of_nested_node (fns 2) outer_node "inner"
                    ctx_v5 _ Hc) arg_node eq_refl).
  - exact (proj2 (attached_read_of_nested_node (fns 2) outer_node "lit"
                    ctx_v5 _ Hc) hi_node eq_refl).
Defined.

(** A list of a variable, a blank node in a match sequence of one, and a
    string; a [plist] of a number and a match sequence of one string. *)
Definition mixed_list : Val :=
  VList [VVariable "v"; VParseResults [VBNode "b"]; VStr "s"].

Definition ground_plist : Val := VPlist [VInt 1; VParseResults [VStr "a"]].

(** X7 at the list, in the context that binds [?v] to an error. *)
Lemma value_permissive_total_witness :
  node_free mixed_list = true
  /\ exists r, value no_fns ctx_verr mixed_list true true heap8 = (Ok r, heap8).
Proof.
  split; [reflexivity|].
  exact (value_permissive_total no_fns ctx_verr mixed_list eq_refl heap8).
Defined.

(** X8 at the [plist]. *)
Lemma value_of_ground_witness :
  ground ground_plist = true
  /\ exists r, forall ctx variables errors h,
      value no_fns ctx ground_plist variables errors h = (Ok r, h).
Proof.
  split; [reflexivity|].
  exact (value_of_ground no_fns ground_plist eq_refl).
Defined.

(** X9 at the node of the sum and the new key ["z"]. *)
Lemma setitem_then_read_witness :
  read_ctx (setitem (base sum_node) "z" (VInt 9)) heap8 = (Ok None, heap8)
  /\ __getitem__ no_fns (setitem (base sum_node) "z" (VInt 9)) "z" heap8
     = (Ok (VInt 9), heap8)
  /\ __getitem__ no_fns (setitem (base sum_node) "z" (VInt 9)) "x" heap8
     = (Ok (VInt 3), heap8)
  /\ OrderedDict.keys (items (setitem (base sum_node) "z" (VInt 9)))
     = ["x"; "y"; "z"].
Proof.
  assert (Hc : read_ctx (setitem (base sum_node) "z" (VInt 9)) heap8
               = (Ok None, heap8)) by reflexivity.
  destruct (setitem_then_read no_fns (base sum_node) "z" (VInt 9) false false
              heap8 Hc) as (Hz & _ & Hother & Hkeys).
  split; [exact Hc|]. split; [exact Hz|]. split; [|exact Hkeys].
  refine (Hother "x" _). discriminate.
Defined.

Lemma NoDup_x_y : NoDup (OrderedDict.keys (items (base sum_node))).
Proof.
  apply (bool_decide_unpack _). exact I.
Defined.

(** X10 at the node of the sum. *)
Lemma clone_without_context_witness :
  (read_ctx (base sum_node) heap8 = (Ok None, heap8)
   /\ NoDup (OrderedDict.keys (items (base sum_node)))
   /\ OrderedDict.contains "self" (items (base sum_node)) = false
   /\ OrderedDict.contains "name" (items (base sum_node)) = false)
  /\ clone no_fns (base sum_node) heap8
     = (Ok (MkCompValue 8 "Sum" [("x", VInt 3); ("y", VInt 4)]),
        snd (alloc heap8)).
Proof.
  split; [repeat split; exact NoDup_x_y|].
  exact (proj1 (clone_without_context no_fns (base sum_node) heap8
                  eq_refl NoDup_x_y eq_refl eq_refl)).
Defined.

(** A node with a key ["name"]. *)
Definition named_node : CompValue := MkCompValue 7 "T" [("name", VStr "n")].

Lemma NoDup_name : NoDup (OrderedDict.keys (items named_node)).
Proof.
  apply (bool_decide_unpack _). exact I.
Defined.

(** X11 at that node. *)
Lemma clone_reserved_key_witness :
  (read_ctx named_node heap8 = (Ok None, heap8)
   /\ NoDup (OrderedDict.keys (items named_node))
   /\ OrderedDict.contains "name" (items named_node) = true)
  /\ clone no_fns named_node heap8 = (Raise ExTypeError, snd (alloc heap8)).
Proof.
  split; [repeat split; exact NoDup_name|].
  exact (clone_reserved_key no_fns named_node heap8 eq_refl NoDup_name
           (or_intror eq_refl)).
Defined.

Lemma NoDup_arg : NoDup (OrderedDict.keys (items (base arg_node))).
Proof.
  apply (bool_decide_unpack _). exact I.
Defined.

Lemma node_free_arg :
  Forall (fun kv => node_free (snd kv) = true) (items (base arg_node)).
Proof. repeat constructor. Defined.

(** X12 at the node that holds [?v] under ["arg"]: with [{?v: 5}]
    attached the clone holds 5, and with [{}] attached [clone] raises
    [NotBoundError]. *)
Lemma clone_with_context_witness :
  (read_ctx (base arg_node) (attached8 (base arg_node) ctx_v5)
   = (Ok (Some ctx_v5), attached8 (base arg_node) ctx_v5)
   /\ NoDup (OrderedDict.keys (items (base arg_node)))
   /\ Forall (fun kv => node_free (snd kv) = true) (items (base arg_node)))
  /\ clone no_fns (base arg_node) (attached8 (base arg_node) ctx_v5)
     = (Ok (MkCompValue 8 "Arg" [("arg", VInt 5)]),
        snd (alloc (attached8 (base arg_node) ctx_v5)))
  /\ clone no_fns (base arg_node) (attached8 (base arg_node) ctx_empty)
     = (Raise (ExSPARQL (NotBoundError None)),
        attached8 (base arg_node) ctx_empty).
Proof.
  split; [split; [reflexivity | split; [exact NoDup_arg | exact node_free_arg]]|].
  split.
  - exact (eq_trans
             (clone_with_context no_fns (base arg_node) ctx_v5
                (attached8 (base arg_node) ctx_v5) eq_refl NoDup_arg
                node_free_arg)
             eq_refl).
  - exact (eq_trans
             (clone_with_context no_fns (base arg_node) ctx_empty
                (attached8 (base arg_node) ctx_empty) eq_refl NoDup_arg
                node_free_arg)
             eq_refl).
Defined.

(** X13 at the production of the sum: [x=3] from a [Param], then a token
    of a [ParamList] for [x]. *)
Lemma postParse_list_after_scalar_witness :
  (is_ServiceGraphPattern Sum = false
   /\ scalar_only [Param.postParse2 "x" false [VInt 3]] = true
   /\ last_value "x" [Param.postParse2 "x" false [VInt 3]] = Some (VInt 3)
   /\ last_value "ctx" [Param.postParse2 "x" false [VInt 3]] = None
   /\ isinstance_list (VInt 3) = false
   /\ isinstance_ParseResults (VInt 3) = false
   /\ isinstance_CompValue (VInt 3) = false)
  /\ postParse no_fns W Sum "3+4" 3
               ([Param.postParse2 "x" false [VInt 3]]
                ++ VParamValue "x" (VInt 4) true :: [])
               heap8
     = (Raise ExAttributeError, snd (alloc heap8)).
Proof.
  split; [repeat split|].
  exact (postParse_list_after_scalar no_fns W Sum "3+4" 3
           [Param.postParse2 "x" false [VInt 3]] [] "x" (VInt 3) (VInt 4)
           heap8 eq_refl eq_refl eq_refl eq_refl eq_refl eq_refl eq_refl).
Defined.

(** X14 at two tokens of a [ParamList] for [x], then [x=9] from a
    [Param], then a comma. *)
Lemma postParse_last_scalar_wins_witness :
  (uses true "x" [VStr ","] = false
   /\ uses false "x" [VStr ","] = false
   /\ postParse no_fns W items_comp "x" 1
                ([VParamValue "x" (VInt 1) true; VParamValue "x" (VInt 2) true]
                 ++ VParamValue "x" (VInt 9) false :: [VStr ","])
                heap8
      = (Ok (VCompValue (MkCompValue 8 "Items" [("x", VInt 9)])),
         snd (alloc heap8)))
  /\ exists c,
      VCompValue (MkCompValue 8 "Items" [("x", VInt 9)]) = built items_comp c
      /\ OrderedDict.get "x" (items c) = Some (VInt 9).
Proof.
  split; [repeat split|].
  exact (postParse_last_scalar_wins no_fns W items_comp "x" 1
           [VParamValue "x" (VInt 1) true; VParamValue "x" (VInt 2) true]
           [VStr ","] "x" (VInt 9) heap8 (snd (alloc heap8))
           (VCompValue (MkCompValue 8 "Items" [("x", VInt 9)]))
           eq_refl eq_refl eq_refl).
Defined.

(** The data lines of the examples, read with the sample token rules. *)
Definition sample_rows (vars : list Val) (lines : list string)
  : M (list (list (Val * Val))) :=
  parse_lines no_fns W Terminals.STRING_LITERAL1 Terminals.STRING_LITERAL2
              Terminals.LANGTAG Terminals.IRIREF Terminals.BLANK_NODE_LABEL
              Terminals.NumericLiteral Terminals.BooleanLiteral vars lines.

Definition sample_ROW : ParserElement :=
  ROW no_fns W Terminals.STRING_LITERAL1 Terminals.STRING_LITERAL2
      Terminals.LANGTAG Terminals.IRIREF Terminals.BLANK_NODE_LABEL
      Terminals.NumericLiteral Terminals.BooleanLiteral.

Definition row_hi : list (Val * Val) :=
  [(VVariable "a", hi_en); (VVariable "b", VNone)].

Definition row_42 : list (Val * Val) :=
  [(VVariable "a", RDFLiteral (VInt 42) VNone VNone);
   (VVariable "b", RDFLiteral (VBool true) VNone VNone)].

(** X15 at a blank line between the two lines of the scenarios. *)
Lemma blank_lines_are_skipped_witness :
  (NL <> "" /\ strip_newlines NL = "")
  /\ sample_rows vars_ab ([line_hi] ++ NL :: [line_42]) heap8
     = sample_rows vars_ab ([line_hi] ++ [line_42]) heap8.
Proof.
  assert (Hl : NL <> "") by discriminate.
  split; [split; [exact Hl | reflexivity]|].
  exact (blank_lines_are_skipped no_fns W Terminals.STRING_LITERAL1
           Terminals.STRING_LITERAL2 Terminals.LANGTAG Terminals.IRIREF
           Terminals.BLANK_NODE_LABEL Terminals.NumericLiteral
           Terminals.BooleanLiteral vars_ab [line_hi] [line_42] NL heap8
           Hl eq_refl).
Defined.

Lemma line_hi_not_empty : Forall (fun l : string => l <> "") [line_hi].
Proof. repeat constructor. discriminate. Defined.

(** X16 at the two lines of the scenarios. *)
Lemma rows_line_by_line_witness :
  Forall (fun l : string => l <> "") [line_hi]
  /\ sample_rows vars_ab ([line_hi] ++ [line_42]) heap8
     = (bs1 <- sample_rows vars_ab [line_hi] ;;
        bs2 <- sample_rows vars_ab [line_42] ;;
        ret (bs1 ++ bs2)) heap8.
Proof.
  split; [exact line_hi_not_empty|].
  exact (rows_line_by_line no_fns W Terminals.STRING_LITERAL1
           Terminals.STRING_LITERAL2 Terminals.LANGTAG Terminals.IRIREF
           Terminals.BLANK_NODE_LABEL Terminals.NumericLiteral
           Terminals.BooleanLiteral vars_ab [line_hi] [line_42] heap8
           line_hi_not_empty).
Defined.

Lemma three_lines_not_empty :
  Forall (fun l : string => l <> "") [line_hi; NL; line_42].
Proof. repeat constructor; discriminate. Defined.

(** X17 at the two lines of the scenarios with a blank line between. *)
Lemma one_row_per_line_witness :
  (Forall (fun l : string => l <> "") [line_hi; NL; line_42]
   /\ sample_rows vars_ab [line_hi; NL; line_42] heap8
      = (Ok [row_hi; row_42], snd (alloc heap8)))
  /\ length [row_hi; row_42]
     = length (filter (fun l => strip_newlines l <> "") [line_hi; NL; line_42]).
Proof.
  split; [split; [exact three_lines_not_empty | reflexivity]|].
  exact (one_row_per_line no_fns W Terminals.STRING_LITERAL1
           Terminals.STRING_LITERAL2 Terminals.LANGTAG Terminals.IRIREF
           Terminals.BLANK_NODE_LABEL Terminals.NumericLiteral
           Terminals.BooleanLiteral vars_ab [line_hi; NL; line_42]
           three_lines_not_empty heap8 [row_hi; row_42] (snd (alloc heap8))
           eq_refl).
Defined.

(** A header of three variables, and the node of the literal of
    [line_hi] built in [heap8]. *)
Definition vars_abc : list Val := [VVariable "a"; VVariable "b"; VVariable "c"].

Definition hi_node8 : CompValue :=
  MkCompValue 8 "literal" [("string", VStr "hi"); ("lang", VStr "en")].

Definition heap9 : Heap := snd (alloc heap8).

Lemma line_hi_layout :
  row_layout no_fns W Terminals.STRING_LITERAL1 Terminals.STRING_LITERAL2
             Terminals.LANGTAG Terminals.IRIREF Terminals.BLANK_NODE_LABEL
             Terminals.NumericLiteral Terminals.BooleanLiteral
             (strip_newlines line_hi) heap8
             (Some (VCompValue hi_node8)) [None] heap9.
Proof.
  exists 7, heap9, 8. split; [|split].
  - split; [|split].
    + intros [H|H]; discriminate H.
    + apply Nat.leb_le. reflexivity.
    + reflexivity.
  - split; [reflexivity|]. exists 8, heap9. split.
    + split; [left; reflexivity | split; reflexivity].
    + split; reflexivity.
  - reflexivity.
Defined.


(** A line that holds a variable, which is no term. *)
Definition line_bad : string := "?x" +:+ NL.

(** X19 at the line of the first scenario followed by that line. *)
Lemma bad_row_fails_witness :
  (Forall (fun l : string => l <> "") [line_hi]
   /\ sample_rows vars_ab [line_hi] heap8 = (Ok [row_hi], heap9)
   /\ line_bad <> "" /\ strip_newlines line_bad <> ""
   /\ parseString TSV_WHITE true sample_ROW (strip_newlines line_bad) true heap9
      = (Raise (ExParseException 0), heap9))
  /\ sample_rows vars_ab ([line_hi] ++ line_bad :: [line_42]) heap8
     = (Raise (ExParseException 0), heap9).
Proof.
  assert (Hl : line_bad <> "") by discriminate.
  assert (Hb : strip_newlines line_bad <> "") by discriminate.
  split; [split; [exact line_hi_not_empty|]; repeat split; assumption|].
  exact (bad_row_fails no_fns W Terminals.STRING_LITERAL1
           Terminals.STRING_LITERAL2 Terminals.LANGTAG Terminals.IRIREF
           Terminals.BLANK_NODE_LABEL Terminals.NumericLiteral
           Terminals.BooleanLiteral vars_ab [line_hi] line_bad [line_42]
           [row_hi] (ExParseException 0) heap8 heap9 heap9
           line_hi_not_empty eq_refl Hl Hb eq_refl).
Defined.

(** X20 at a source of one blank line, with the sample rule of a
    variable. *)
Lemma blank_header_fails_witness :
  (strip (hd "" [NL]) = ""
   /\ parseImpl Terminals.Var "" 0 heap8 = (Raise (ExParseException 0), heap8))
  /\ Terminals.parse [NL] heap8 = (Raise (ExParseException 0), heap8).
Proof.
  split; [split; reflexivity|].
  exact (blank_header_fails no_fns W Terminals.STRING_LITERAL1
           Terminals.STRING_LITERAL2 Terminals.LANGTAG Terminals.IRIREF
           Terminals.BLANK_NODE_LABEL Terminals.NumericLiteral
           Terminals.BooleanLiteral Terminals.Var [NL] (ExParseException 0)
           heap8 heap8 eq_refl eq_refl).
Defined.

(** A table whose functions are all [lambda self, ctx: self["missing"]],
    a node evaluated with it, and a node that holds that node. *)
Definition fns_missing : FnId -> Expr -> Ctx -> M Val :=
  fun _ self _ => __getitem__ no_fns (base self) "missing".

Definition key_node : Expr := MkExpr (MkCompValue 4 "K" []) (Some 0).

Definition holder_node : CompValue :=
  MkCompValue 6 "Holder" [("inner", VExpr key_node)].

(** X21 at the holder with [{?v: 5}] attached: item access of ["inner"]
    raises the [KeyError] of the inner function and attribute access gives
    [None]. *)
Lemma getattr_swallows_KeyError_witness :
  (read_ctx holder_node (attached8 holder_node ctx_v5)
   = (Ok (Some ctx_v5), attached8 holder_node ctx_v5)
   /\ OrderedDict.get "inner" (items holder_node) = Some (VExpr key_node)
   /\ eval fns_missing key_node ctx_v5 (attached8 holder_node ctx_v5)
      = (Raise (ExKeyError "missing"),
         snd (eval fns_missing key_node ctx_v5 (attached8 holder_node ctx_v5))))
  /\ __getitem__ fns_missing holder_node "inner" (attached8 holder_node ctx_v5)
     = (Raise (ExKeyError "missing"),
        snd (eval fns_missing key_node ctx_v5 (attached8 holder_node ctx_v5)))
  /\ __getattr__ fns_missing holder_node "inner" (attached8 holder_node ctx_v5)
     = (Ok VNone,
        snd (eval fns_missing key_node ctx_v5 (attached8 holder_node ctx_v5))).
Proof.
  split; [repeat split|].
  refine (getattr_swallows_KeyError fns_missing holder_node "inner" ctx_v5
            key_node "missing" (attached8 holder_node ctx_v5)
            (snd (eval fns_missing key_node ctx_v5
                       (attached8 holder_node ctx_v5)))
            _ _ eq_refl eq_refl eq_refl); discriminate.
Defined.

(** X22 at the production of the sum on ["3+4"]. *)
Lemma Comp_element_one_token_witness :
  (is_ServiceGraphPattern Sum = false
   /\ parseImpl (Comp.expr Sum) "3+4" 0 heap8
      = (Ok (3, [VParamValue "x" (VInt 3) false; VStr "+";
                 VParamValue "y" (VInt 4) false]), heap8)
   /\ scalar_only [VParamValue "x" (VInt 3) false; VStr "+";
                   VParamValue "y" (VInt 4) false] = true)
  /\ exists c,
      parseImpl (Comp_element (fns 1) W Sum) "3+4" 0 heap8
      = (Ok (3, [built Sum c]), snd (alloc heap8))
      /\ name c = Comp.name Sum
      /\ oid c = next_oid heap8
      /\ forall a, OrderedDict.get a (items c)
                   = last_value a [VParamValue "x" (VInt 3) false; VStr "+";
                                   VParamValue "y" (VInt 4) false].
Proof.
  split; [repeat split|].
  exact (proj1 (Comp_element_one_token (fns 1) W Sum "3+4" 0 heap8 heap8
                  eq_refl) 3 _ eq_refl eq_refl).
Defined.

(** X23 at the literal of [line_hi]. *)
Lemma RDFLITERAL_keys_witness :
  parseImpl (RDFLITERAL no_fns W Terminals.STRING_LITERAL1
                        Terminals.STRING_LITERAL2 Terminals.LANGTAG
                        Terminals.IRIREF)
            (strip_newlines line_hi) 0 heap8
  = (Ok (7, [VCompValue hi_node8]), heap9)
  /\ exists c,
      [VCompValue hi_node8] = [VCompValue c] /\ name c = "literal"
      /\ (OrderedDict.keys (items c) = ["string"]
          \/ OrderedDict.keys (items c) = ["string"; "lang"]
          \/ OrderedDict.keys (items c) = ["string"; "datatype"]).
Proof.
  split; [reflexivity|].
  exact (RDFLITERAL_keys no_fns W Terminals.STRING_LITERAL1
           Terminals.STRING_LITERAL2 Terminals.LANGTAG Terminals.IRIREF
           (strip_newlines line_hi) 0 7 [VCompValue hi_node8] heap8 heap9
           eq_refl).
Defined.
